(** * Clique voting snapshot and its batched snapshot writer

    A shallow embedding of [consensus/clique]'s snapshot code
    (second document of [src/ethdb/typedcursor/internal/gen.go]):
    the voting state machine ([validVote], [cast], [uncast], [apply],
    [signers], [inturn]), the persistence glue ([store], [save]) and the
    background writer ([newStorage]'s consumer loop, [saveSnaps], [Close]).

    Conventions.
    - [uint64] and [int] values are integers of [Z]; every place where Go
      arithmetic can leave the range is wrapped with [wrap64] / [wrapInt]
      (a decrement guarded by [> 1], a subtraction guarded by [>=] and
      half a length plus one cannot).
    - [common.Address] (20 bytes) and [common.Hash] (32 bytes) are read as
      big-endian naturals, so that [bytes.Compare] on two of them is the
      numeric comparison.
    - Go maps are [gmap]s, the signer set is a [gset], slices are lists.
    - A method with a pointer receiver that mutates the snapshot takes the
      snapshot and returns the new one next to its Go result.
    - Field names that Go repeats across structs carry a letter of their
      struct: [SNumber], [SHash], [SVotes], [STally] in [Snapshot],
      [VAddress], [VAuthorize] in [Vote], [HNonce] in [Header]. *)

From Stdlib Require Import ZArith NArith Lia List Bool.
From Stdlib.Strings Require Import Byte String.
From stdpp Require Import base decidable numbers option list sorting
  countable fin_maps fin_sets gmap.

Local Open Scope Z_scope.

(** ** Machine integers *)

Definition two64 : Z := 2 ^ 64.
Definition maxUint64 : Z := two64 - 1.
Definition maxInt : Z := 2 ^ 63 - 1.
Definition minInt : Z := - 2 ^ 63.

(** Result of an [uint64] operation. *)
Definition wrap64 (z : Z) : Z := z mod two64.

(** Result of an [int] (64-bit, two's complement) operation. *)
Definition wrapInt (z : Z) : Z := (z + 2 ^ 63) mod two64 - 2 ^ 63.

(** ** Data model *)

Definition Address := N.
Definition Hash := N.
Definition Nonce := N.

Record Vote := mkVote {
  Signer : Address;     (* Authorized signer that cast this vote *)
  Block : Z;            (* Block number the vote was cast in *)
  VAddress : Address;   (* Account being voted on *)
  VAuthorize : bool     (* Whether to authorize or deauthorize *)
}.

Record Tally := mkTally {
  Authorize : bool;     (* Whether the vote is about authorizing or kicking *)
  Votes : Z             (* Number of votes until now (Go [int]) *)
}.

(** Modelled from the spec: [params.CliqueConfig], of which the snapshot
    reads the checkpoint interval. *)
Record CliqueConfig := mkConfig {
  Period : Z;
  Epoch : Z             (* Epoch length to reset votes and checkpoint *)
}.

Record Snapshot := mkSnapshot {
  config : CliqueConfig;
  SNumber : Z;                       (* uint64 *)
  SHash : Hash;
  Signers : gset Address;
  Recents : gmap Z Address;
  SVotes : list Vote;
  STally : gmap Address Tally
}.

(** Modelled from the spec: [types.Header] is declared outside the source
    at hand; this is the part of it that the snapshot reads. [Number] is
    the value of [header.Number.Uint64()], [HeaderHash] that of
    [header.Hash()]; [Seal] stands for the signature bytes in the extra
    data, which only the signature recovery reads. *)
Record Header := mkHeader {
  Number : Z;
  Coinbase : Address;
  HNonce : Nonce;
  HeaderHash : Hash;
  Seal : N
}.

Inductive error :=
  | errInvalidVotingChain
  | errUnauthorizedSigner
  | errRecentlySigned
  | errInvalidVote
  | errExternal (code : N).   (* an error reported by a collaborator *)

(** What a call does: return [nil], return an error, or panic at run time
    (integer division by zero, nil dereference). *)
Inductive result :=
  | ok
  | fail (e : error)
  | panic.

Definition set_Signers (s : Snapshot) (x : gset Address) : Snapshot :=
  mkSnapshot (config s) (SNumber s) (SHash s) x (Recents s) (SVotes s) (STally s).
Definition set_Recents (s : Snapshot) (x : gmap Z Address) : Snapshot :=
  mkSnapshot (config s) (SNumber s) (SHash s) (Signers s) x (SVotes s) (STally s).
Definition set_Votes (s : Snapshot) (x : list Vote) : Snapshot :=
  mkSnapshot (config s) (SNumber s) (SHash s) (Signers s) (Recents s) x (STally s).
Definition set_Tally (s : Snapshot) (x : gmap Address Tally) : Snapshot :=
  mkSnapshot (config s) (SNumber s) (SHash s) (Signers s) (Recents s) (SVotes s) x.
Definition set_Head (s : Snapshot) (n : Z) (h : Hash) : Snapshot :=
  mkSnapshot (config s) n h (Signers s) (Recents s) (SVotes s) (STally s).

(** [newSnapshot]: genesis snapshot with the given signers. *)
Definition newSnapshot (cfg : CliqueConfig) (number : Z) (hash : Hash)
    (signers : list Address) : Snapshot :=
  mkSnapshot cfg number hash (list_to_set signers) ∅ [] ∅.

(** [len(s.Signers)] as a Go [int]. *)
Definition lenSigners (s : Snapshot) : Z := Z.of_nat (size (Signers s)).

(** ** validVote, cast, uncast *)

Definition isSigner (s : Snapshot) (a : Address) : bool :=
  bool_decide (a ∈ Signers s).

Definition validVote (s : Snapshot) (address : Address) (authorize : bool) : bool :=
  let signer := isSigner s address in
  (signer && negb authorize) || (negb signer && authorize).

Definition cast (s : Snapshot) (address : Address) (authorize : bool)
    : Snapshot * bool :=
  if negb (validVote s address authorize) then (s, false)
  else match STally s !! address with
       | Some old =>
           (set_Tally s (<[address := mkTally (Authorize old) (wrapInt (Votes old + 1))]> (STally s)), true)
       | None =>
           (set_Tally s (<[address := mkTally authorize 1]> (STally s)), true)
       end.

Definition uncast (s : Snapshot) (address : Address) (authorize : bool)
    : Snapshot * bool :=
  match STally s !! address with
  | None => (s, false)
  | Some tally =>
      if negb (eqb (Authorize tally) authorize) then (s, false)
      else if 1 <? Votes tally
        then (set_Tally s (<[address := mkTally (Authorize tally) (Votes tally - 1)]> (STally s)), true)
        else (set_Tally s (delete address (STally s)), true)
  end.

(** ** signers, inturn *)

(** [signers]: the set's members, sorted ascending by [bytes.Compare]. *)
Definition signers (s : Snapshot) : list Address :=
  merge_sort N.le (elements (Signers s)).

(** The scan [for offset < len(signers) && signers[offset] != signer]:
    [rest] is [signers[offset:]]. *)
Fixpoint scanOffset (rest : list Address) (signer : Address) (offset : Z) : Z :=
  match rest with
  | [] => offset
  | a :: rest' =>
      if N.eqb a signer then offset else scanOffset rest' signer (offset + 1)
  end.

(** [inturn]; [None] is the run-time panic of [number % 0]. *)
Definition inturn (s : Snapshot) (number : Z) (signer : Address) : option bool :=
  let sigs := signers s in
  let offset := scanOffset sigs signer 0 in
  let n := Z.of_nat (length sigs) in
  if n =? 0 then None else Some (number mod n =? offset).

(** ** apply *)

(** The membership test of the loop [for _, recent := range s.Recents]. *)
Definition recentlySigned (recents : gmap Z Address) (signer : Address) : bool :=
  existsb (λ kv, N.eqb (snd kv) signer) (map_to_list recents).

(** [if limit := uint64(len(s.Signers)/2 + 1); number >= limit
     { delete(s.Recents, number-limit) }] *)
Definition evictRecent (s : Snapshot) (number : Z) : Snapshot :=
  let limit := lenSigners s / 2 + 1 in
  if limit <=? number then set_Recents s (delete (number - limit) (Recents s))
  else s.

(** The loop that discards the previous vote of [signer]: the first vote
    of the list cast by [signer] for [coinbase] is uncast and cut out,
    then the loop breaks. [votes] is the part of the list still to visit. *)
Fixpoint discardPrevious (s : Snapshot) (votes : list Vote)
    (signer coinbase : Address) : Snapshot * list Vote :=
  match votes with
  | [] => (s, [])
  | vote :: rest =>
      if N.eqb (Signer vote) signer && N.eqb (VAddress vote) coinbase
      then (fst (uncast s (VAddress vote) (VAuthorize vote)), rest)
      else let '(s', rest') := discardPrevious s rest signer coinbase in
           (s', vote :: rest')
  end.

(** The index loop that discards every vote cast by the deauthorized
    signer, uncasting each one. *)
Fixpoint discardVotesBy (s : Snapshot) (votes : list Vote)
    (who : Address) : Snapshot * list Vote :=
  match votes with
  | [] => (s, [])
  | vote :: rest =>
      if N.eqb (Signer vote) who
      then discardVotesBy (fst (uncast s (VAddress vote) (VAuthorize vote))) rest who
      else let '(s', rest') := discardVotesBy s rest who in
           (s', vote :: rest')
  end.

(** The index loop that discards every vote around the changed account. *)
Fixpoint discardVotesFor (votes : list Vote) (who : Address) : list Vote :=
  match votes with
  | [] => []
  | vote :: rest =>
      if N.eqb (VAddress vote) who then discardVotesFor rest who
      else vote :: discardVotesFor rest who
  end.

(** [s.Tally[address]], the zero [Tally] when the key is absent. *)
Definition tallyOf (s : Snapshot) (address : Address) : Tally :=
  default (mkTally false 0) (STally s !! address).

(** "If the vote passed, update the list of signers": the last block of
    the loop body. *)
Definition resolve (s : Snapshot) (coinbase : Address) (number : Z) : Snapshot :=
  let tally := tallyOf s coinbase in
  if lenSigners s / 2 <? Votes tally then
    let s1 :=
      if Authorize tally then set_Signers s ({[coinbase]} ∪ Signers s)
      else
        let s' := evictRecent (set_Signers s (Signers s ∖ {[coinbase]})) number in
        let '(s'', votes) := discardVotesBy s' (SVotes s') coinbase in
        set_Votes s'' votes in
    let s2 := set_Votes s1 (discardVotesFor (SVotes s1) coinbase) in
    set_Tally s2 (delete coinbase (STally s2))
  else s.

Section Apply.
(** [ecrecover(header, sigcache)] and the two vote nonces are declared
    in clique.go; they are taken as parameters. *)
Variable ecrecover : Header → error + Address.
Variables nonceAuthVote nonceDropVote : Nonce.

Definition decodeVote (nonce : Nonce) : option bool :=
  if N.eqb nonce nonceAuthVote then Some true
  else if N.eqb nonce nonceDropVote then Some false
  else None.

(** The loop body up to and including the tallying of the new vote. *)
Definition tallyHeader (s : Snapshot) (header : Header) : Snapshot * result :=
  let number := Number header in
  if Epoch (config s) =? 0 then (s, panic) else
  let s := if number mod Epoch (config s) =? 0
           then set_Tally (set_Votes s []) ∅ else s in
  let s := evictRecent s number in
  match ecrecover header with
  | inl e => (s, fail e)
  | inr signer =>
      if negb (isSigner s signer) then (s, fail errUnauthorizedSigner)
      else if recentlySigned (Recents s) signer then (s, fail errRecentlySigned)
      else
        let s := set_Recents s (<[number := signer]> (Recents s)) in
        let '(s', votes) := discardPrevious s (SVotes s) signer (Coinbase header) in
        let s := set_Votes s' votes in
        match decodeVote (HNonce header) with
        | None => (s, fail errInvalidVote)
        | Some authorize =>
            let '(s', mutated) := cast s (Coinbase header) authorize in
            if mutated
            then (set_Votes s' (SVotes s' ++
                    [mkVote signer number (Coinbase header) authorize]), ok)
            else (s', ok)
        end
  end.

(** One iteration of the loop of [apply]. The progress log that follows
    the resolution touches no state and is left out. *)
Definition applyHeader (s : Snapshot) (header : Header) : Snapshot * result :=
  match tallyHeader s header with
  | (s', ok) => (resolve s' (Coinbase header) (Number header), ok)
  | r => r
  end.

(** Iterations in the order given, stopping at the first failure. *)
Fixpoint applyLoop (s : Snapshot) (hs : list Header) : Snapshot * result :=
  match hs with
  | [] => (s, ok)
  | header :: rest =>
      match applyHeader s header with
      | (s', ok) => applyLoop s' rest
      | r => r
      end
  end.

(** The sanity check on consecutive numbers. *)
Fixpoint contiguous (headers : list Header) : bool :=
  match headers with
  | h1 :: (h2 :: _) as rest =>
      (Number h2 =? wrap64 (Number h1 + 1)) && contiguous rest
  | _ => true
  end.

(** [apply]. The loop runs [i] from [len(headers)-1] down to [0], that
    is over the headers in reverse. *)
Definition apply (s : Snapshot) (headers : list Header) : Snapshot * result :=
  match headers with
  | [] => (s, ok)
  | first :: _ =>
      if negb (contiguous headers) then (s, fail errInvalidVotingChain)
      else if negb (Number first =? wrap64 (SNumber s + 1))
      then (s, fail errInvalidVotingChain)
      else
        match applyLoop s (rev headers) with
        | (s', ok) =>
            (set_Head s'
               (wrap64 (SNumber s' + Z.of_nat (length headers)))
               (HeaderHash (List.last headers first)), ok)
        | r => r
        end
  end.

(** The processing order that the description of [apply] gives: the
    same transition, folded over the headers oldest to newest. *)
Definition apply_oldest_first (s : Snapshot) (headers : list Header)
    : Snapshot * result :=
  match headers with
  | [] => (s, ok)
  | first :: _ =>
      if negb (contiguous headers) then (s, fail errInvalidVotingChain)
      else if negb (Number first =? wrap64 (SNumber s + 1))
      then (s, fail errInvalidVotingChain)
      else
        match applyLoop s headers with
        | (s', ok) =>
            (set_Head s'
               (wrap64 (SNumber s' + Z.of_nat (length headers)))
               (HeaderHash (List.last headers first)), ok)
        | r => r
        end
  end.
End Apply.

(** A signature recovery for worked examples: the seal is the signer. *)
Definition sealSigner (h : Header) : error + Address := inr (Seal h).
Definition authNonce : Nonce := 0xffffffffffffffff%N.
Definition dropNonce : Nonce := 0%N.
Definition testConfig : CliqueConfig := mkConfig 15 30000.

(** ** Persistence *)

Definition Blob := list byte.

(** Modelled from the spec: [dbutils.BlockBodyKey] is declared outside
    the source at hand. The spec has the key as the big-endian block
    number followed by the block hash, both of fixed width; the pair
    stands for this concatenation. *)
Definition Key : Type := Z * Hash.
Definition BlockBodyKey (num : Z) (hash : Hash) : Key := (num, hash).

(** Modelled from the spec: [ethdb.Database] is declared outside the
    source at hand. The spec gives the storage handle [Get], [Has],
    [Append] of one key/value pair and a batch with [Append], [Commit]
    and [Rollback], each of which may fail. The model keeps the bucket as
    a finite map and lets every primitive fail by a switch that carries
    the error it reports. *)
Record Database := mkDatabase {
  cells : gmap Key Blob;
  hasError : option error;
  appendError : option error;
  commitError : option error
}.

(** Modelled from the spec: [Has] of the storage handle. *)
Definition dbHas (db : Database) (key : Key) : bool * option error :=
  match hasError db with
  | Some e => (false, Some e)
  | None => (bool_decide (is_Some (cells db !! key)), None)
  end.

(** Modelled from the spec: [Append] of one key/value pair. *)
Definition dbAppend (db : Database) (key : Key) (value : Blob)
    : Database * option error :=
  match appendError db with
  | Some e => (db, Some e)
  | None =>
      (mkDatabase (<[key := value]> (cells db)) (hasError db)
         (appendError db) (commitError db), None)
  end.

(** Modelled from the spec: the batch abstraction of the storage handle;
    a batch is the pairs appended so far, oldest first. *)
Definition Batch := list (Key * Blob).

(** Modelled from the spec: [Append] of the batch. *)
Definition batchAppend (db : Database) (b : Batch) (key : Key) (value : Blob)
    : Batch * option error :=
  match appendError db with
  | Some e => (b, Some e)
  | None => (b ++ [(key, value)], None)
  end.

(** Modelled from the spec: [Commit] of the batch; the [Rollback] that
    follows a commit has nothing left to drop. *)
Definition batchCommit (db : Database) (b : Batch) : Database * option error :=
  match commitError db with
  | Some e => (db, Some e)
  | None =>
      (mkDatabase (foldl (λ m kv, <[fst kv := snd kv]> m) (cells db) b)
         (hasError db) (appendError db) (commitError db), None)
  end.

Definition hasSnapshotData (db : Database) (num : Z) (hash : Hash)
    : bool * option error :=
  dbHas db (BlockBodyKey num hash).

(** ** The batched writer *)

Record snapObj := mkSnapObj {
  number : Z;
  hash : Hash;
  blob : Blob
}.

(** [storage]. [ch] is the content of the buffered channel, oldest first,
    [chCap] its capacity, [chClosed] and [exitClosed] tell whether the
    two channels have been closed, [chStatus] is the cell behind the
    [*uint32]. *)
Record storage := mkStorage {
  ch : list snapObj;
  chCap : Z;
  chClosed : bool;
  chStatus : Z;
  db : Database;
  exitClosed : bool;
  batchSize : Z
}.

Definition set_ch (st : storage) (x : list snapObj) : storage :=
  mkStorage x (chCap st) (chClosed st) (chStatus st) (db st) (exitClosed st) (batchSize st).
Definition set_db (st : storage) (x : Database) : storage :=
  mkStorage (ch st) (chCap st) (chClosed st) (chStatus st) x (exitClosed st) (batchSize st).

(** What a call that may wait on a channel does. *)
Inductive progress :=
  | finished
  | blocked      (* waits: the buffered channel is full *)
  | crashed.     (* run-time panic *)

(** [save]. *)
Definition save (st : storage) (num : Z) (h : Hash) (b : Blob) (force : bool)
    : storage * progress :=
  let snap := mkSnapObj num h b in
  if negb force then
    if exitClosed st then
      (* atomic.CompareAndSwapUint32(st.chStatus, 0, 1) *)
      if chStatus st =? 0
      then (mkStorage (ch st) (chCap st) true 1 (db st) (exitClosed st) (batchSize st),
            finished)
      else (st, finished)
    else
      (* st.ch <- snap *)
      if chClosed st then (st, crashed)
      else if chCap st <=? Z.of_nat (length (ch st)) then (st, blocked)
      else (set_ch st (ch st ++ [snap]), finished)
  else
    (* a forced case (genesis) *)
    let '(present, err) := hasSnapshotData (db st) num h in
    if negb present || bool_decide (is_Some err) then
      (* the error of Append is logged and dropped *)
      (set_db st (fst (dbAppend (db st) (BlockBodyKey (number snap) (hash snap)) (blob snap))),
       finished)
    else (st, finished).

(** Modelled from the spec: [common.SafeClose] is declared outside the
    source at hand. The spec has [Close] idempotent, raising the close
    signal once: the channel is closed unless it is closed already. *)
Definition SafeClose (closed : bool) : bool := true.

(** [Close]. *)
Definition Close (st : storage) : storage :=
  mkStorage (ch st) (chCap st) (chClosed st) (chStatus st) (db st)
    (SafeClose (exitClosed st)) (batchSize st).

(** [shallAppend]. *)
Definition shallAppend (st : storage) (snap : snapObj) : bool :=
  let '(present, err) := hasSnapshotData (db st) (number snap) (hash snap) in
  negb present || bool_decide (is_Some err).

(** The comparison given to [sort.SliceStable]. *)
Definition snapLess (a b : snapObj) : bool :=
  (number a <? number b) ||
  ((number a =? number b) && (hash a <? hash b)%N).

(** [sort.SliceStable]: a stable sort, written as the insertion sort that
    keeps equal items in their order of arrival. *)
Fixpoint insertStable (x : snapObj) (l : list snapObj) : list snapObj :=
  match l with
  | [] => [x]
  | y :: l' => if snapLess y x then y :: insertStable x l' else x :: y :: l'
  end.

Definition sortStable (l : list snapObj) : list snapObj :=
  foldr insertStable [] l.

(** The slice that [saveSnaps] walks through: sorted only when the caller
    says the arrivals were not in order. *)
Definition batchOrder (snaps : list snapObj) (isSorted : bool) : list snapObj :=
  if negb isSorted && (1 <? Z.of_nat (length snaps)) then sortStable snaps
  else snaps.

(** The loop of [batch.Append] calls; a failing append is logged and
    skipped. *)
Fixpoint appendAll (db : Database) (b : Batch) (snaps : list snapObj) : Batch :=
  match snaps with
  | [] => b
  | snap :: rest =>
      appendAll db
        (fst (batchAppend db b (BlockBodyKey (number snap) (hash snap)) (blob snap)))
        rest
  end.

(** [saveSnaps]: the database after the commit (a failing commit is
    logged and the deferred rollback drops the batch), and the items
    handed to [batch.Append], in the order of the calls. *)
Definition saveSnaps (st : storage) (snaps : list snapObj) (isSorted : bool)
    : storage * list snapObj :=
  if Z.of_nat (length snaps) =? 0 then (st, [])
  else
    let ordered := batchOrder snaps isSorted in
    let batch := appendAll (db st) [] ordered in
    (set_db st (fst (batchCommit (db st) batch)), ordered).

(** [newStorage]: the fields of the fresh [storage]. *)
Definition newStorage (d : Database) : storage :=
  mkStorage [] (100000 / 2) false 0 d false 100000.

(** [syncSmallBatch.Seconds()] for [syncSmallBatch = time.Minute]. *)
Definition syncSmallSeconds : Z := 60.

(** The goroutine started by [newStorage]: its locals [snaps] and
    [isSorted], whether it still runs, and, as a record of what it did,
    the sequence of physical batches (each one the list of its
    [batch.Append] calls), oldest first. *)
Inductive task := Running | Returned | Panicked.

Record writer := mkWriter {
  stor : storage;
  snaps : list snapObj;
  isSorted : bool;
  consumer : task;
  batches : list (list snapObj)
}.

Definition startWriter (d : Database) : writer :=
  mkWriter (newStorage d) [] true Running [].

Definition lenZ {A} (l : list A) : Z := Z.of_nat (length l).

(** [snap, isOpen := <-st.ch]: [None] when the receive has to wait. *)
Definition receive (st : storage) : option (option snapObj * bool * storage) :=
  match ch st with
  | x :: rest => Some (Some x, true, set_ch st rest)
  | [] => if chClosed st then Some (None, false, st) else None
  end.

(** One turn of the loop through [case snap, isOpen := <-st.ch]. *)
Definition onReceive (w : writer) : option writer :=
  match consumer w, receive (stor w) with
  | Running, Some (got, isOpen, st) =>
      let status := chStatus st in
      match got with
      | None =>
          (* shallAppend reads snap.number through the nil pointer *)
          Some (mkWriter st (snaps w) (isSorted w) Panicked (batches w))
      | Some snap =>
          let '(sn, srt) :=
            if shallAppend st snap then
              let sn := snaps w ++ [snap] in
              (sn,
               if isSorted w && (1 <? lenZ sn) &&
                  (number snap <? number (nth (length sn - 2) sn snap))
               then false else isSorted w)
            else (snaps w, isSorted w) in
          let '(st, sn, srt, bs) :=
            if (batchSize st <=? lenZ sn) || (negb isOpen && (0 <? lenZ sn))
            then let '(st', appended) := saveSnaps st sn srt in
                 (st', [], true, batches w ++ [appended])
            else (st, sn, srt, batches w) in
          Some (mkWriter st sn srt
                  (if (status =? 1) && (lenZ (ch st) =? 0) then Returned else Running)
                  bs)
      end
  | _, _ => None
  end.

(** One turn of the loop through [case <-syncSmall.C]. *)
Definition onTick (w : writer) : option writer :=
  match consumer w with
  | Running =>
      let st := stor w in
      let status := chStatus st in
      let sn := snaps w in
      let '(st, sn, srt, bs) :=
        if ((status =? 1) && (0 <? lenZ sn)) ||
           ((0 <? lenZ sn) && (lenZ sn <? syncSmallSeconds))
        then let '(st', appended) := saveSnaps st sn (isSorted w) in
             (st', [], true, batches w ++ [appended])
        else (st, sn, isSorted w, batches w) in
      Some (mkWriter st sn srt
              (if (status =? 1) && (lenZ (ch st) =? 0) then Returned else Running)
              bs)
  | _ => None
  end.

Section Store.
(** [json.Marshal] of the snapshot's exported fields. *)
Variable marshal : Snapshot → error + Blob.

(** [store]: [st] is [s.snapStorage], [d] the database handed in. The
    third component is the error returned once the call finishes. *)
Definition store (s : Snapshot) (st : storage) (d : Database) (force : bool)
    : storage * progress * option error :=
  let '(present, err) := hasSnapshotData d (SNumber s) (SHash s) in
  if present && negb (bool_decide (is_Some err)) then (st, finished, None)
  else
    match marshal s with
    | inl e => (st, finished, Some e)
    | inr b =>
        let '(st', p) := save st (SNumber s) (SHash s) b force in
        (st', p, None)
    end.
End Store.

(** ** Producers, [Close] and the consumer, interleaved

    The producers and the consumer goroutine share the [storage]. A run
    of the writer is a sequence of events, each one a call or a turn of
    the consumer loop carried out without interruption. Go allows every
    such schedule (and finer ones). *)
Inductive event :=
  | Save (num : Z) (h : Hash) (b : Blob)   (* save(num, h, b, false) *)
  | CloseWriter                            (* Close() *)
  | Receive                                (* the consumer takes the receive case *)
  | Tick.                                  (* the consumer takes the ticker case *)

(** [None]: the event cannot happen in this state (a blocked send or
    receive, a consumer that has gone). A producer that panics takes the
    process down. *)
Definition step (w : writer) (e : event) : option writer :=
  match e with
  | Save num h b =>
      match save (stor w) num h b false with
      | (st, finished) =>
          Some (mkWriter st (snaps w) (isSorted w) (consumer w) (batches w))
      | (st, crashed) =>
          Some (mkWriter st (snaps w) (isSorted w) Panicked (batches w))
      | (_, blocked) => None
      end
  | CloseWriter =>
      Some (mkWriter (Close (stor w)) (snaps w) (isSorted w) (consumer w) (batches w))
  | Receive => onReceive w
  | Tick => onTick w
  end.

Fixpoint run (w : writer) (es : list event) : option writer :=
  match es with
  | [] => Some w
  | e :: rest =>
      match step w e with
      | Some w' => run w' rest
      | None => None
      end
  end.

(** The (number, hash) order of the batches. *)
Definition snapLe (a b : snapObj) : Prop :=
  number a < number b ∨ (number a = number b ∧ (hash a <= hash b)%N).

(** A snapshot blob is durable when the bucket holds it under its key. *)
Definition committed (d : Database) (snap : snapObj) : Prop :=
  cells d !! BlockBodyKey (number snap) (hash snap) = Some (blob snap).

Definition emptyDatabase : Database := mkDatabase ∅ None None None.

(** ** Loading *)

(** Modelled from the spec: [Get] of the storage handle fetches the blob
    stored under a key; for a key that is not stored it reports an
    error. *)
Definition dbGet (d : Database) (key : Key) : error + Blob :=
  match cells d !! key with
  | Some value => inr value
  | None => inl (errExternal 404)
  end.

Definition getSnapshotData (d : Database) (num : Z) (h : Hash) : error + Blob :=
  dbGet d (BlockBodyKey num h).

Definition set_config (s : Snapshot) (cfg : CliqueConfig) : Snapshot :=
  mkSnapshot cfg (SNumber s) (SHash s) (Signers s) (Recents s) (SVotes s) (STally s).

Section Load.
(** [json.Unmarshal] into a fresh [Snapshot]. The unexported fields stay
    unset; in the result the configuration is a place holder that
    [loadAndFillSnapshot] overwrites. *)
Variable unmarshal : Blob → error + Snapshot.

Definition loadSnapshot (d : Database) (num : Z) (h : Hash) : error + Snapshot :=
  match getSnapshotData d num h with
  | inl e => inl e
  | inr b =>
      match unmarshal b with
      | inl e => inl e
      | inr snap => inr snap
      end
  end.

Definition loadAndFillSnapshot (d : Database) (num : Z) (h : Hash)
    (cfg : CliqueConfig) : error + Snapshot :=
  match loadSnapshot d num h with
  | inl e => inl e
  | inr snap => inr (set_config snap cfg)
  end.
End Load.

(** ** Typed cursors, as generated

    The first document of the source file is the generator of
    [typed_gen.go]: [main] runs the template once per entry of [Types]
    and writes the methods below for the types [uint64] and [int]. The
    methods are embedded as the template gives them, with the template
    variables as a parameter. *)

Record TemplateVariables := mkTemplateVariables {
  Type_ : string;
  BucketType : string;
  NilValue : string;
  OnlyPositive : bool
}.

Definition Types : list TemplateVariables :=
  [ mkTemplateVariables "uint64"%string "Uint64"%string "0"%string true;
    mkTemplateVariables "int"%string "Int"%string "0"%string false ].

(** Arithmetic of the Go type named by [.Type]. *)
Definition wrapOf (el : TemplateVariables) (z : Z) : Z :=
  if String.eqb (Type_ el) "uint64"%string then wrap64 z else wrapInt z.

Definition inRangeOf (el : TemplateVariables) (z : Z) : Prop :=
  if String.eqb (Type_ el) "uint64"%string then 0 ≤ z ≤ maxUint64
  else minInt ≤ z ≤ maxInt.

(** The errors made with [errors.New] in the generated methods, and the
    error of the cursor's [Put]. *)
Inductive cursorError :=
  | errNotFoundKey          (* "not found key" *)
  | errDecrementZero        (* "could not decrement zero" *)
  | errCursor (e : error).

(** What a generated method does: return [nil], return an error, or
    panic inside [MustDecode]. *)
Inductive cursorResult :=
  | cursorOk
  | cursorFail (e : cursorError)
  | cursorPanic.

Section TypedCursor.
(** [ethdb.Cursor] and the [cbor] encoder and decoder are declared
    outside the source at hand; they are parameters. [SeekExact] gives
    the value under the key, [None] for Go's [nil]; [MustDecode] gives
    [None] where it panics. *)
Variable Cursor : Type.
Variable SeekExact : Cursor → list byte → option Blob.
Variable CursorPut : Cursor → list byte → Blob → Cursor * option error.
Variable MustEncode : Z → Blob.
Variable MustDecode : Blob → option Z.
Variable el : TemplateVariables.

(** [Get]: the value and whether the key is there; [None] is the panic
    of [MustDecode]. *)
Definition Get (b : Cursor) (key : list byte) : option (Z * bool) :=
  match SeekExact b key with
  | None => Some (0, false)
  | Some value =>
      match MustDecode value with
      | Some v => Some (v, true)
      | None => None
      end
  end.

Definition Put (b : Cursor) (key : list byte) (value : Z)
    : Cursor * cursorResult :=
  match CursorPut b key (MustEncode value) with
  | (b', None) => (b', cursorOk)
  | (b', Some e) => (b', cursorFail (errCursor e))
  end.

Definition Increment (b : Cursor) (key : list byte) : Cursor * cursorResult :=
  match Get b key with
  | None => (b, cursorPanic)
  | Some (v, _) => Put b key (wrapOf el (v + 1))
  end.

Definition Decrement (b : Cursor) (key : list byte) : Cursor * cursorResult :=
  match Get b key with
  | None => (b, cursorPanic)
  | Some (v, present) =>
      if negb present then (b, cursorFail errNotFoundKey)
      else if OnlyPositive el && (v =? 0) then (b, cursorFail errDecrementZero)
      else Put b key (wrapOf el (v - 1))
  end.

End TypedCursor.

#[global] Instance byte_eq_decision : EqDecision byte := Byte.byte_eq_dec.
#[global] Instance byte_countable : Countable byte :=
  inj_countable Byte.to_N Byte.of_N Byte.of_to_N.

(** A cursor and a codec for worked examples: a finite map whose [Put]
    always succeeds, and numbers written as a sign byte followed by as
    many bytes as the magnitude. *)
Definition mapSeek (m : gmap (list byte) Blob) (key : list byte) : option Blob :=
  m !! key.
Definition mapPut (m : gmap (list byte) Blob) (key : list byte) (value : Blob)
    : gmap (list byte) Blob * option error :=
  (<[key := value]> m, None).
Definition tallyEncode (z : Z) : Blob :=
  (if z <? 0 then x01 else x00) :: repeat x2a (Z.to_nat (Z.abs z)).
Definition tallyDecode (b : Blob) : option Z :=
  match b with
  | [] => None
  | sign :: rest =>
      Some (if Byte.eqb sign x01 then - Z.of_nat (length rest)
            else Z.of_nat (length rest))
  end.

(** ** Predicates of the properties *)

(** Some two neighbours fail the numbers check of [apply], or the first
    header does not sit right above the snapshot ([uint64] arithmetic). *)
Definition brokenChain (s : Snapshot) (headers : list Header) : Prop :=
  (∃ i h1 h2, headers !! i = Some h1 ∧ headers !! S i = Some h2 ∧
              Number h2 ≠ wrap64 (Number h1 + 1)) ∨
  (∃ first, headers !! 0%nat = Some first ∧
            Number first ≠ wrap64 (SNumber s + 1)).




(** Every entry of the tally has at least one vote. *)
Definition tallyPositive (s : Snapshot) : Prop :=
  ∀ a t, STally s !! a = Some t → 1 ≤ Votes t.

(** Every count of the tally can still grow by [k] within [int]. *)
Definition tallyRoom (k : Z) (s : Snapshot) : Prop :=
  ∀ a t, STally s !! a = Some t → Votes t + k ≤ maxInt.

(** Both at once, on the map itself. *)
Definition countsWithin (k : Z) (m : gmap Address Tally) : Prop :=
  map_Forall (λ _ t, 1 ≤ Votes t ≤ maxInt - k) m.


(** The existence check at the head of [store]. *)
Definition alreadyStored (d : Database) (s : Snapshot) : bool :=
  let '(present, err) := hasSnapshotData d (SNumber s) (SHash s) in
  present && negb (bool_decide (is_Some err)).


(** The fields that only the end of a successful [apply] writes. *)
Definition headOf (s : Snapshot) : CliqueConfig * Z * Hash :=
  (config s, SNumber s, SHash s).

(** "Remove any votes on checkpoint blocks": the first step of the loop
    body, for a non-zero epoch. *)
Definition checkpointReset (s : Snapshot) (number : Z) : Snapshot :=
  if number mod Epoch (config s) =? 0 then set_Tally (set_Votes s []) ∅ else s.

(** No address stands under two block numbers of the recents. *)
Definition recentsDistinct (s : Snapshot) : Prop :=
  ∀ k1 k2 a, Recents s !! k1 = Some a → Recents s !! k2 = Some a → k1 = k2.


(** The number of pending votes on a candidate. *)
Fixpoint countFor (c : Address) (votes : list Vote) : Z :=
  match votes with
  | [] => 0
  | v :: rest => (if N.eqb (VAddress v) c then 1 else 0) + countFor c rest
  end.

(** The tally holds, for every candidate, the number of pending votes on
    it, and no entry for a candidate without pending votes. *)
Definition countsMatch (m : gmap Address Tally) (votes : list Vote) : Prop :=
  ∀ c, match m !! c with
       | Some t => Votes t = countFor c votes ∧ 1 ≤ Votes t
       | None => countFor c votes = 0
       end.

(** Every pending vote carries the flag of its candidate's tally. *)
Definition flagsMatch (m : gmap Address Tally) (votes : list Vote) : Prop :=
  ∀ v t, v ∈ votes → m !! VAddress v = Some t → Authorize t = VAuthorize v.

(** Every tally proposes a change of membership. *)
Definition tallyValid (s : Snapshot) : Prop :=
  ∀ c t, STally s !! c = Some t → validVote s c (Authorize t) = true.

(** Votes and tally tell the same story. *)
Definition votesTallied (s : Snapshot) : Prop :=
  countsMatch (STally s) (SVotes s) ∧ flagsMatch (STally s) (SVotes s) ∧
  tallyValid s.


(** Block numbers do not go down. *)
Definition numLe (a b : snapObj) : Prop := number a ≤ number b.

(** What holds of the writer between any two events of a run. *)
Definition writerInv (w : writer) : Prop :=
  chCap (stor w) = 50000 ∧ batchSize (stor w) = 100000 ∧
  lenZ (ch (stor w)) ≤ 50000 ∧ lenZ (snaps w) < 100000 ∧
  (isSorted w = true → Sorted numLe (snaps w)) ∧
  Forall (λ b, b ≠ [] ∧ Sorted numLe b) (batches w).

(** A database on which appends and commits succeed. *)
Definition writable (d : Database) : Prop :=
  appendError d = None ∧ commitError d = None.


(** ** Worked inputs *)

Module Scenario.
Definition A : Address := 10%N.
Definition B : Address := 20%N.
Definition C : Address := 30%N.
Definition X : Address := 77%N.
Definition Y : Address := 88%N.

Definition applyT := apply sealSigner authNonce dropNonce.
Definition applyOldestFirstT := apply_oldest_first sealSigner authNonce dropNonce.
Definition applyHeaderT := applyHeader sealSigner authNonce dropNonce.

(** A header without a proposal: zero beneficiary, drop nonce. *)
Definition plain (n : Z) (signer : Address) : Header :=
  mkHeader n 0%N dropNonce (N.of_nat (Z.to_nat n) + 1000)%N signer.
Definition propose (n : Z) (signer candidate : Address) (authorize : bool) : Header :=
  mkHeader n candidate (if authorize then authNonce else dropNonce)
    (N.of_nat (Z.to_nat n) + 1000)%N signer.

(** One signer, two blocks in a row. *)
Definition solo : Snapshot := newSnapshot testConfig 0 0%N [A].
Definition soloChain : list Header := [plain 1 A; plain 2 A].

(** Three signers. [B] proposes [X], [A] signs a plain block, then [B]
    proposes [Y]: three calls of one header each. *)
Definition trio : Snapshot := newSnapshot testConfig 0 0%N [A; B; C].
Definition afterBX : Snapshot := fst (applyT trio [propose 1 B X true]).


(** A tally whose count is the largest [int]. *)
Definition saturated : Snapshot :=
  mkSnapshot testConfig 0 0%N {[A; B; C]} ∅ [] {[X := mkTally true maxInt]}.

(** A database whose single-pair [Append] fails. *)
Definition brokenAppend : Database := mkDatabase ∅ None (Some (errExternal 5)) None.
Definition marshalT (s : Snapshot) : error + Blob := inr [x7b; x7d].

Definition item (n : Z) (h : Hash) : snapObj := mkSnapObj n h [x7b; x7d].
Definition saveItem (n : Z) (h : Hash) : event := Save n h [x7b; x7d].

(** Two forks of height 5 arrive, the larger hash first, and the ticker
    fires. *)
Definition forkTrace : list event :=
  [saveItem 5 2%N; saveItem 5 1%N; Receive; Receive; Tick].

(** An item is queued, the writer is closed, a later [save] sees the
    close signal, and the consumer takes the queued item. *)
Definition closeTrace : list event :=
  [saveItem 7 1%N; CloseWriter; saveItem 8 2%N; Receive].
(** A header whose nonce is neither vote nonce. *)
Definition badNonce : Header := mkHeader 1 X 5%N 1001%N A.

(** The block before a checkpoint, with a vote pending, and the
    checkpoint header. *)
Definition beforeCheckpoint : Snapshot :=
  mkSnapshot testConfig 29999 0%N {[A; B; C]} ∅
    [mkVote B 29990 X true] {[X := mkTally true 1]}.
Definition checkpointHeader : Header := propose 30000 C Y true.

(** The writer after [forkTrace]. *)
Definition forkWriter : writer :=
  default (startWriter emptyDatabase) (run (startWriter emptyDatabase) forkTrace).

(** A consumer with sixty items in its buffer. *)
Definition backlog : writer :=
  mkWriter (newStorage emptyDatabase) (repeat (item 1 1%N) 60) true Running [].

Definition unmarshalT (b : Blob) : error + Snapshot := inr trio.

(** The two generated buckets, over the map cursor. *)
Definition uintBucket : TemplateVariables :=
  mkTemplateVariables "uint64"%string "Uint64"%string "0"%string true.
Definition intBucket : TemplateVariables :=
  mkTemplateVariables "int"%string "Int"%string "0"%string false.
Definition keyA : list byte := [x61].
Definition keyB : list byte := [x62].
Definition getT := Get (gmap (list byte) Blob) mapSeek tallyDecode.
Definition putT := Put (gmap (list byte) Blob) mapPut tallyEncode.
Definition incrementT (el : TemplateVariables) :=
  Increment (gmap (list byte) Blob) mapSeek mapPut tallyEncode tallyDecode el.
Definition decrementT (el : TemplateVariables) :=
  Decrement (gmap (list byte) Blob) mapSeek mapPut tallyEncode tallyDecode el.
Definition five : gmap (list byte) Blob := fst (putT ∅ keyA 5).
End Scenario.

(** * Properties *)

(** ** Machine integers *)

Lemma wrap64_id z : 0 ≤ z ≤ maxUint64 → wrap64 z = z.
Proof.
  intros Hz. unfold wrap64. apply Z.mod_small.
  unfold maxUint64 in Hz. lia.
Qed.

Lemma wrapInt_id z : minInt ≤ z ≤ maxInt → wrapInt z = z.
Proof.
  unfold wrapInt, minInt, maxInt, two64. intros Hz.
  rewrite Z.mod_small; lia.
Qed.

(** ** signers and inturn *)

Lemma signers_elem s a : a ∈ signers s ↔ a ∈ Signers s.
Proof.
  unfold signers. rewrite merge_sort_Permutation. apply elem_of_elements.
Qed.

Lemma signers_length s : Z.of_nat (length (signers s)) = lenSigners s.
Proof.
  unfold signers, lenSigners. by rewrite merge_sort_Permutation.
Qed.

Lemma signers_sorted s : Sorted N.le (signers s).
Proof. apply (Sorted_merge_sort N.le). Qed.

Lemma scanOffset_absent rest a offset :
  a ∉ rest → scanOffset rest a offset = offset + Z.of_nat (length rest).
Proof.
  revert offset. induction rest as [|b rest IH]; intros offset Hin; simpl.
  - lia.
  - apply not_elem_of_cons in Hin as [Hne Hin].
    destruct (N.eqb_spec b a) as [->|_]; [done|].
    rewrite IH by done. lia.
Qed.



(** C10. With a non-empty signer set, an address outside it is never
    in turn: the scan ends with [offset = len(signers)], which no
    remainder modulo [len(signers)] equals. *)
Theorem inturn_stranger (s : Snapshot) (number : Z) (addr : Address) :
  Signers s ≠ ∅ → addr ∉ Signers s → inturn s number addr = Some false.
Proof.
  intros Hne Hout. unfold inturn.
  rewrite scanOffset_absent by (by rewrite signers_elem).
  rewrite signers_length.
  assert (0 < lenSigners s) as Hpos.
  { unfold lenSigners.
    assert (size (Signers s) ≠ 0%nat) by (by intros ?%size_empty_inv%leibniz_equiv).
    lia. }
  destruct (lenSigners s =? 0) eqn:Hz; [apply Z.eqb_eq in Hz; lia|].
  f_equal. apply Z.eqb_neq.
  pose proof (Z.mod_pos_bound number (lenSigners s) Hpos). lia.
Qed.

Lemma inturn_stranger_witness :
  inturn Scenario.trio 6 Scenario.X = Some false.
Proof.
  apply (inturn_stranger Scenario.trio 6 Scenario.X).
  - vm_compute. set_solver.
  - vm_compute. set_solver.
Defined.

(** ** The checks at the head of apply *)

Section ApplyChecks.
Variable ecrecover : Header → error + Address.
Variables nonceAuthVote nonceDropVote : Nonce.

Lemma contiguous_gap (headers : list Header) (i : nat) (h1 h2 : Header) :
  headers !! i = Some h1 → headers !! S i = Some h2 →
  Number h2 ≠ wrap64 (Number h1 + 1) → contiguous headers = false.
Proof.
  revert i. induction headers as [|a [|b rest] IH]; intros i H1 H2 Hne.
  - done.
  - by destruct i.
  - destruct i as [|i].
    + simpl in H1, H2. injection H1 as ->. injection H2 as ->.
      cbn [contiguous]. apply andb_false_intro1. by apply Z.eqb_neq.
    + cbn [contiguous]. apply andb_false_intro2. by apply (IH i).
Qed.

(** C3, as the code has it. A call without headers returns [nil]. A
    sequence in which two neighbours fail the numbers check, or whose
    first number is not [snapshot.number + 1], is refused with
    [errInvalidVotingChain], and the snapshot is the one passed in. *)
Theorem apply_checks (s : Snapshot) :
  apply ecrecover nonceAuthVote nonceDropVote s [] = (s, ok) ∧
  ∀ headers, brokenChain s headers →
    apply ecrecover nonceAuthVote nonceDropVote s headers
      = (s, fail errInvalidVotingChain).
Proof.
  split; [done|]. intros headers Hbroken. unfold apply.
  destruct headers as [|first rest].
  { destruct Hbroken as [(i & h1 & h2 & H1 & _)|(h & H & _)]; by destruct i || done. }
  destruct (contiguous (first :: rest)) eqn:Hc; [|done].
  destruct Hbroken as [(i & h1 & h2 & H1 & H2 & Hne)|(h & H & Hne)].
  - by rewrite (contiguous_gap _ i h1 h2) in Hc.
  - injection H as ->. cbn [negb].
    by apply Z.eqb_neq in Hne as ->.
Qed.
End ApplyChecks.

Lemma apply_checks_witness :
  brokenChain Scenario.trio [Scenario.plain 1 Scenario.A; Scenario.plain 3 Scenario.B] ∧
  Scenario.applyT Scenario.trio [Scenario.plain 1 Scenario.A; Scenario.plain 3 Scenario.B]
    = (Scenario.trio, fail errInvalidVotingChain).
Proof.
  assert (H : brokenChain Scenario.trio
                [Scenario.plain 1 Scenario.A; Scenario.plain 3 Scenario.B]).
  { left. exists 0%nat, (Scenario.plain 1 Scenario.A), (Scenario.plain 3 Scenario.B).
    repeat split. vm_compute. discriminate. }
  split; [exact H|].
  exact (proj2 (apply_checks sealSigner authNonce dropNonce Scenario.trio) _ H).
Defined.

(** C3 as stated fails on the empty sequence: [apply] with no headers
    returns [nil], not [errInvalidVotingChain]. *)
Lemma apply_no_headers_is_accepted :
  snd (Scenario.applyT Scenario.trio []) = ok ∧
  snd (Scenario.applyT Scenario.trio []) ≠ fail errInvalidVotingChain.
Proof. split; [reflexivity | discriminate]. Qed.

(** ** The order of the loop of apply *)

Lemma apply_one_header_either_order ecrecover nonceAuthVote nonceDropVote s header :
  apply ecrecover nonceAuthVote nonceDropVote s [header]
    = apply_oldest_first ecrecover nonceAuthVote nonceDropVote s [header].
Proof. reflexivity. Qed.

Lemma apply_loop_reversed ecrecover nonceAuthVote nonceDropVote s headers s' :
  apply ecrecover nonceAuthVote nonceDropVote s headers = (s', ok) →
  headers ≠ [] →
  ∃ s1, applyLoop ecrecover nonceAuthVote nonceDropVote s (rev headers) = (s1, ok) ∧
        Signers s' = Signers s1 ∧ Recents s' = Recents s1 ∧
        SVotes s' = SVotes s1 ∧ STally s' = STally s1.
Proof.
  unfold apply. intros H Hne. destruct headers as [|first rest]; [done|].
  destruct (negb (contiguous _)); [done|].
  destruct (negb (_ =? _)); [done|].
  destruct (applyLoop _ _ _ s (rev (first :: rest))) as [s1 []]; [|done..].
  injection H as <-. by exists s1.
Qed.

(** C1 at a chain of two blocks sealed by the only signer. The chain
    passes the checks; folding the transition oldest to newest accepts it
    and moves the snapshot to block 2, while [apply] visits block 2 before
    block 1 and returns [errRecentlySigned]. *)
Theorem apply_visits_newest_first :
  contiguous Scenario.soloChain = true ∧
  snd (Scenario.applyOldestFirstT Scenario.solo Scenario.soloChain) = ok ∧
  SNumber (fst (Scenario.applyOldestFirstT Scenario.solo Scenario.soloChain)) = 2 ∧
  snd (Scenario.applyT Scenario.solo Scenario.soloChain) = fail errRecentlySigned ∧
  Scenario.applyT Scenario.solo Scenario.soloChain
    ≠ Scenario.applyOldestFirstT Scenario.solo Scenario.soloChain.
Proof.
  assert (Hnew : snd (Scenario.applyT Scenario.solo Scenario.soloChain)
                 = fail errRecentlySigned) by (vm_compute; reflexivity).
  assert (Hold : snd (Scenario.applyOldestFirstT Scenario.solo Scenario.soloChain)
                 = ok) by (vm_compute; reflexivity).
  split; [reflexivity|]. split; [exact Hold|].
  split; [vm_compute; reflexivity|]. split; [exact Hnew|].
  intros Heq. rewrite Heq, Hold in Hnew. discriminate.
Qed.

(** ** What each step of the loop body touches *)

Lemma cast_Signers s a b : Signers (fst (cast s a b)) = Signers s.
Proof. unfold cast. by repeat case_match. Qed.

Lemma cast_Votes s a b : SVotes (fst (cast s a b)) = SVotes s.
Proof. unfold cast. by repeat case_match. Qed.

Lemma uncast_Signers s a b : Signers (fst (uncast s a b)) = Signers s.
Proof. unfold uncast. by repeat case_match. Qed.

Lemma evictRecent_Signers s n : Signers (evictRecent s n) = Signers s.
Proof. unfold evictRecent. by case_match. Qed.

Lemma evictRecent_Votes s n : SVotes (evictRecent s n) = SVotes s.
Proof. unfold evictRecent. by case_match. Qed.

Lemma evictRecent_Tally s n : STally (evictRecent s n) = STally s.
Proof. unfold evictRecent. by case_match. Qed.

Lemma discardPrevious_Signers s votes signer coinbase :
  Signers (fst (discardPrevious s votes signer coinbase)) = Signers s.
Proof.
  induction votes as [|v votes IH]; simpl; [done|].
  case_match; simpl; [apply uncast_Signers|].
  by destruct (discardPrevious s votes signer coinbase).
Qed.

Lemma discardVotesBy_Signers s votes who :
  Signers (fst (discardVotesBy s votes who)) = Signers s.
Proof.
  revert s. induction votes as [|v votes IH]; intros s; simpl; [done|].
  case_match.
  - rewrite IH. apply uncast_Signers.
  - specialize (IH s). by destruct (discardVotesBy s votes who).
Qed.

Lemma discardVotesFor_spec votes who v :
  v ∈ discardVotesFor votes who ↔ v ∈ votes ∧ VAddress v ≠ who.
Proof.
  induction votes as [|w votes IH]; simpl.
  - split; [by intros ?%elem_of_nil | by intros [?%elem_of_nil _]].
  - destruct (N.eqb_spec (VAddress w) who) as [Heq|Hne].
    + rewrite IH, elem_of_cons. split; [tauto|].
      intros [[->|?] ?]; [congruence | done].
    + rewrite !elem_of_cons, IH. split.
      * intros [->|[? ?]]; auto.
      * intros [[->|?] ?]; auto.
Qed.

Lemma discardVotesFor_sublist votes who :
  discardVotesFor votes who `sublist_of` votes.
Proof.
  induction votes as [|w votes IH]; simpl; [done|].
  case_match; by constructor.
Qed.

Lemma discardVotesBy_sublist s votes who :
  snd (discardVotesBy s votes who) `sublist_of` votes.
Proof.
  revert s. induction votes as [|w votes IH]; intros s; simpl; [done|].
  case_match.
  - constructor. apply IH.
  - specialize (IH s). destruct (discardVotesBy s votes who). by constructor.
Qed.

Lemma discardPrevious_sublist s votes signer coinbase :
  snd (discardPrevious s votes signer coinbase) `sublist_of` votes.
Proof.
  induction votes as [|w votes IH]; simpl; [done|].
  case_match; simpl; [by constructor|].
  destruct (discardPrevious s votes signer coinbase). by constructor.
Qed.

Section Resolution.
Variable ecrecover : Header → error + Address.
Variables nonceAuthVote nonceDropVote : Nonce.

Lemma tallyHeader_Signers s header :
  Signers (fst (tallyHeader ecrecover nonceAuthVote nonceDropVote s header))
    = Signers s.
Proof.
  unfold tallyHeader.
  destruct (Epoch (config s) =? 0); [done|].
  set (s1 := if Number header mod Epoch (config s) =? 0
             then set_Tally (set_Votes s []) ∅ else s).
  assert (Signers s1 = Signers s) as H1 by (subst s1; by case_match).
  destruct (ecrecover header) as [e|signer]; cbn [fst];
    [by rewrite evictRecent_Signers|].
  destruct (negb _); cbn [fst]; [by rewrite evictRecent_Signers|].
  destruct (recentlySigned _ _); cbn [fst]; [by rewrite evictRecent_Signers|].
  set (s2 := set_Recents _ _).
  assert (Signers s2 = Signers s) as H2
    by (subst s2; simpl; by rewrite evictRecent_Signers).
  pose proof (discardPrevious_Signers s2 (SVotes s2) signer (Coinbase header)) as H3.
  destruct (discardPrevious s2 (SVotes s2) signer (Coinbase header)) as [s3 votes].
  cbn [fst] in H3.
  destruct (decodeVote _ _ _) as [authorize|]; cbn [fst set_Votes Signers];
    [|congruence].
  pose proof (cast_Signers (set_Votes s3 votes) (Coinbase header) authorize) as H4.
  destruct (cast (set_Votes s3 votes) (Coinbase header) authorize) as [s4 []];
    cbn [fst set_Votes Signers] in *; congruence.
Qed.

End Resolution.


(** ** Replacing a signer's earlier vote *)




Section VoteReplacement.
Variable ecrecover : Header → error + Address.
Variables nonceAuthVote nonceDropVote : Nonce.




End VoteReplacement.



(** ** Counts of the tally *)

Lemma countsWithin_split k s :
  countsWithin k (STally s) ↔ tallyPositive s ∧ tallyRoom k s.
Proof.
  unfold countsWithin, tallyPositive, tallyRoom, map_Forall. split.
  - intros H. split; intros a t Hat; specialize (H a t Hat); lia.
  - intros [Hp Hr] a t Hat. specialize (Hp a t Hat). specialize (Hr a t Hat). lia.
Qed.

Lemma countsWithin_weaken j k m :
  j ≤ k → countsWithin k m → countsWithin j m.
Proof.
  unfold countsWithin, map_Forall. intros Hjk H a t Hat.
  specialize (H a t Hat). cbn beta in H. lia.
Qed.

Lemma uncast_counts k s a b :
  countsWithin k (STally s) → countsWithin k (STally (fst (uncast s a b))).
Proof.
  unfold uncast, countsWithin. intros H.
  destruct (STally s !! a) as [t|] eqn:Hat; [|done].
  destruct (negb _); [done|].
  destruct (1 <? Votes t) eqn:Hgt; cbn [fst set_Tally STally].
  - apply Z.ltb_lt in Hgt. pose proof (H a t Hat) as Ht. cbn beta in Ht.
    apply map_Forall_insert_2; [cbn; lia | done].
  - by apply map_Forall_delete.
Qed.

Lemma cast_counts k s a b :
  0 ≤ k → k + 1 ≤ maxInt →
  countsWithin (k + 1) (STally s) → countsWithin k (STally (fst (cast s a b))).
Proof.
  unfold cast. intros Hk Hmax H.
  pose proof (countsWithin_weaken k (k + 1) _ ltac:(lia) H) as Hw.
  destruct (negb _); [done|].
  destruct (STally s !! a) as [old|] eqn:Hat; cbn [fst set_Tally STally].
  - specialize (H a old Hat). cbn beta in H.
    apply map_Forall_insert_2; [|done]. cbn [Votes].
    rewrite wrapInt_id; unfold minInt, maxInt in *; lia.
  - apply map_Forall_insert_2; [cbn; lia | done].
Qed.

Lemma discardPrevious_counts k s votes signer coinbase :
  countsWithin k (STally s) →
  countsWithin k (STally (fst (discardPrevious s votes signer coinbase))).
Proof.
  intros H. induction votes as [|v votes IH]; [done|]. cbn [discardPrevious].
  destruct (_ && _); cbn [fst]; [by apply uncast_counts|].
  by destruct (discardPrevious s votes signer coinbase).
Qed.

Lemma discardVotesBy_counts k s votes who :
  countsWithin k (STally s) →
  countsWithin k (STally (fst (discardVotesBy s votes who))).
Proof.
  revert s. induction votes as [|v votes IH]; intros s H; [done|].
  cbn [discardVotesBy]. destruct (N.eqb _ _).
  - apply IH. by apply uncast_counts.
  - specialize (IH s H). by destruct (discardVotesBy s votes who).
Qed.

Lemma resolve_counts k s coinbase n :
  countsWithin k (STally s) → countsWithin k (STally (resolve s coinbase n)).
Proof.
  unfold resolve. intros H. destruct (_ <? _); [|done].
  cbn [STally set_Tally set_Votes]. apply map_Forall_delete.
  destruct (Authorize _); [done|].
  pose proof (discardVotesBy_counts k
    (evictRecent (set_Signers s (Signers s ∖ {[coinbase]})) n)
    (SVotes (evictRecent (set_Signers s (Signers s ∖ {[coinbase]})) n))
    coinbase) as Hby.
  destruct (discardVotesBy _ _ _) as [s'' votes]. cbn [fst STally set_Votes] in *.
  apply Hby. by rewrite evictRecent_Tally.
Qed.

Section TallyCounts.
Variable ecrecover : Header → error + Address.
Variables nonceAuthVote nonceDropVote : Nonce.

Lemma tallyHeader_counts k s header :
  0 ≤ k → k + 1 ≤ maxInt →
  countsWithin (k + 1) (STally s) →
  countsWithin k
    (STally (fst (tallyHeader ecrecover nonceAuthVote nonceDropVote s header))).
Proof.
  intros Hk Hmax H. unfold tallyHeader.
  assert (k ≤ k + 1) as Hle by lia.
  destruct (Epoch (config s) =? 0);
    [by apply (countsWithin_weaken k (k + 1))|].
  set (s1 := if Number header mod Epoch (config s) =? 0
             then set_Tally (set_Votes s []) ∅ else s).
  assert (countsWithin (k + 1) (STally s1)) as H1.
  { subst s1. case_match; [apply map_Forall_empty | done]. }
  assert (countsWithin k (STally (evictRecent s1 (Number header)))) as H1'.
  { rewrite evictRecent_Tally. by apply (countsWithin_weaken k (k + 1)). }
  destruct (ecrecover header) as [e|signer]; cbn [fst]; [done|].
  destruct (negb _); cbn [fst]; [done|].
  destruct (recentlySigned _ _); cbn [fst]; [done|].
  set (s2 := set_Recents _ _).
  assert (countsWithin (k + 1) (STally s2)) as H2
    by (subst s2; cbn [STally set_Recents]; by rewrite evictRecent_Tally).
  pose proof (discardPrevious_counts (k + 1) s2 (SVotes s2) signer
                (Coinbase header) H2) as H3.
  destruct (discardPrevious s2 (SVotes s2) signer (Coinbase header)) as [s3 votes].
  cbn [fst] in H3.
  destruct (decodeVote _ _ _) as [authorize|]; cbn [fst set_Votes STally];
    [|by apply (countsWithin_weaken k (k + 1))].
  pose proof (cast_counts k (set_Votes s3 votes) (Coinbase header) authorize
                Hk Hmax H3) as H4.
  by destruct (cast (set_Votes s3 votes) (Coinbase header) authorize) as [s4 []].
Qed.

Lemma applyHeader_counts k s header :
  0 ≤ k → k + 1 ≤ maxInt →
  countsWithin (k + 1) (STally s) →
  countsWithin k
    (STally (fst (applyHeader ecrecover nonceAuthVote nonceDropVote s header))).
Proof.
  intros Hk Hmax H. unfold applyHeader.
  pose proof (tallyHeader_counts k s header Hk Hmax H) as Ht.
  destruct (tallyHeader _ _ _ s header) as [sc []]; cbn [fst] in *; [|done..].
  by apply resolve_counts.
Qed.

Lemma applyLoop_counts headers k s :
  0 ≤ k → k + Z.of_nat (length headers) ≤ maxInt →
  countsWithin (k + Z.of_nat (length headers)) (STally s) →
  countsWithin k
    (STally (fst (applyLoop ecrecover nonceAuthVote nonceDropVote s headers))).
Proof.
  revert s. induction headers as [|header headers IH]; intros s Hk Hmax H.
  - cbn in *. by rewrite Z.add_0_r in H.
  - cbn [applyLoop]. cbn [length] in Hmax, H.
    rewrite Nat2Z.inj_succ in Hmax, H.
    pose proof (applyHeader_counts (k + Z.of_nat (length headers)) s header
                  ltac:(lia) ltac:(lia)) as Hh.
    replace (k + Z.of_nat (length headers) + 1)
      with (k + Z.succ (Z.of_nat (length headers))) in Hh by lia.
    specialize (Hh H).
    destruct (applyHeader _ _ _ s header) as [s1 []]; cbn [fst] in *.
    + apply IH; [done | lia | done].
    + eapply countsWithin_weaken; [|exact Hh]. lia.
    + eapply countsWithin_weaken; [|exact Hh]. lia.
Qed.

(** C8, as the code has it. "Every entry of the tally has at least one
    vote" still holds after [uncast]; after [cast], when the count of
    the candidate is below the largest [int]; and after [apply], whether
    it succeeds or fails, when every count can grow by the number of
    headers without leaving [int]. *)
Theorem tally_counts_positive (s : Snapshot) :
  tallyPositive s →
  (∀ a b, tallyPositive (fst (uncast s a b))) ∧
  (∀ a b, (∀ t, STally s !! a = Some t → Votes t < maxInt) →
          tallyPositive (fst (cast s a b))) ∧
  (∀ headers,
     Z.of_nat (length headers) ≤ maxInt →
     tallyRoom (Z.of_nat (length headers)) s →
     tallyPositive
       (fst (apply ecrecover nonceAuthVote nonceDropVote s headers))).
Proof.
  intros Hpos. split; [|split].
  - intros a b. unfold uncast, tallyPositive in *.
    destruct (STally s !! a) as [t|] eqn:Hat; [|done].
    destruct (negb _); [done|].
    destruct (1 <? Votes t) eqn:Hgt; cbn [fst set_Tally STally]; intros a' t'.
    + apply Z.ltb_lt in Hgt. rewrite lookup_insert. case_decide.
      * intros [= <-]. cbn. lia.
      * apply Hpos.
    + rewrite lookup_delete. case_decide; [done | apply Hpos].
  - intros a b Hroom. unfold cast, tallyPositive in *.
    destruct (negb _); [done|].
    destruct (STally s !! a) as [old|] eqn:Hat; cbn [fst set_Tally STally];
      intros a' t'; rewrite lookup_insert; case_decide; try apply Hpos.
    + intros [= <-]. cbn [Votes].
      specialize (Hpos a old Hat). specialize (Hroom old eq_refl).
      rewrite wrapInt_id; unfold minInt, maxInt in *; lia.
    + intros [= <-]. cbn. lia.
  - intros headers Hlen Hroom.
    assert (countsWithin (0 + Z.of_nat (length headers)) (STally s)) as H
      by (by apply countsWithin_split).
    unfold apply.
    destruct headers as [|first rest]; [done|].
    destruct (negb (contiguous _)); [done|].
    destruct (negb (_ =? _)); [done|].
    rewrite <- length_rev in H, Hlen.
    pose proof (applyLoop_counts (rev (first :: rest)) 0 s ltac:(lia)
                  ltac:(lia) H) as Hl.
    apply countsWithin_split in Hl as [Hl _].
    by destruct (applyLoop _ _ _ s (rev (first :: rest))) as [s1 []].
Qed.
End TallyCounts.

Lemma tally_counts_positive_witness :
  tallyPositive Scenario.afterBX ∧
  tallyPositive (fst (uncast Scenario.afterBX Scenario.X true)) ∧
  tallyPositive (fst (cast Scenario.afterBX Scenario.X true)) ∧
  tallyPositive (fst (Scenario.applyT Scenario.afterBX [Scenario.plain 2 Scenario.A])).
Proof.
  assert (Ht : STally Scenario.afterBX = {[Scenario.X := mkTally true 1]})
    by (vm_compute; reflexivity).
  assert (Hpos : tallyPositive Scenario.afterBX).
  { intros a t. rewrite Ht. intros [_ <-]%lookup_singleton_Some. cbn. lia. }
  destruct (tally_counts_positive sealSigner authNonce dropNonce
              Scenario.afterBX Hpos) as (Hu & Hc & Ha).
  split; [exact Hpos|]. split; [apply Hu|]. split.
  - apply Hc. intros t. rewrite Ht, lookup_singleton_eq. intros [= <-].
    vm_compute. reflexivity.
  - apply Ha.
    + vm_compute. discriminate.
    + intros a t. rewrite Ht. intros [_ <-]%lookup_singleton_Some.
      vm_compute. discriminate.
Defined.

(** C8 as stated fails at the top of [int]: a count of 2^63 - 1 is at
    least one, and the increment of [cast] wraps it to -2^63, both in
    [cast] alone and in an [apply] of one header. *)
Lemma cast_wraps_largest_count :
  tallyPositive Scenario.saturated ∧
  ¬ tallyPositive (fst (cast Scenario.saturated Scenario.X true)) ∧
  snd (Scenario.applyT Scenario.saturated [Scenario.propose 1 Scenario.B Scenario.X true])
    = ok ∧
  ¬ tallyPositive
      (fst (Scenario.applyT Scenario.saturated
              [Scenario.propose 1 Scenario.B Scenario.X true])).
Proof.
  split; [|split; [|split]].
  - intros a t. unfold Scenario.saturated. cbn [STally].
    intros [_ <-]%lookup_singleton_Some. vm_compute. discriminate.
  - intros H.
    assert (STally (fst (cast Scenario.saturated Scenario.X true)) !! Scenario.X
            = Some (mkTally true minInt)) as Hx by (vm_compute; reflexivity).
    apply H in Hx. vm_compute in Hx. by apply Hx.
  - vm_compute. reflexivity.
  - intros H.
    assert (STally (fst (Scenario.applyT Scenario.saturated
                           [Scenario.propose 1 Scenario.B Scenario.X true]))
              !! Scenario.X = Some (mkTally true minInt)) as Hx
      by (vm_compute; reflexivity).
    apply H in Hx. vm_compute in Hx. by apply Hx.
Qed.

(** ** store *)

(** C5, as the code has it. A forced [store] does not wait, and it
    returns [nil] whatever the database does with the write: [save]
    logs the error of [Append] and returns nothing. The one error that
    [store] returns is that of the serialization, when the existence
    check has not already ended the call. *)
Theorem forced_store_result (marshal : Snapshot → error + Blob)
    (s : Snapshot) (st : storage) (d : Database) :
  snd (fst (store marshal s st d true)) = finished ∧
  snd (store marshal s st d true) =
    (if alreadyStored d s then None
     else match marshal s with inl e => Some e | inr _ => None end).
Proof.
  unfold store, alreadyStored.
  destruct (hasSnapshotData d (SNumber s) (SHash s)) as [present err].
  destruct (present && _); [done|].
  destruct (marshal s) as [e|b]; [done|].
  unfold save. cbn [negb].
  destruct (hasSnapshotData (db st) (SNumber s) (SHash s)) as [present' err'].
  by destruct (negb present' || _).
Qed.

(** C5 as stated fails: the single-pair [Append] of the database fails,
    and the forced [store] of a snapshot that is not yet stored returns
    [nil]; nothing has been written. *)
Lemma forced_store_hides_write_error :
  let st := newStorage Scenario.brokenAppend in
  snd (dbAppend (db st) (BlockBodyKey 0 0%N) [x7b; x7d]) = Some (errExternal 5) ∧
  store Scenario.marshalT Scenario.trio st Scenario.brokenAppend true
    = (st, finished, None).
Proof. split; vm_compute; reflexivity. Qed.

(** ** The order inside a batch *)

Lemma snapLess_total x y : snapLess y x = false → snapLe x y.
Proof.
  unfold snapLess, snapLe. intros H.
  apply orb_false_elim in H as [H1 H2]. apply Z.ltb_ge in H1.
  destruct (Z.eqb_spec (number y) (number x)) as [Heq|Hne]; [|lia].
  cbn in H2. apply N.ltb_ge in H2. lia.
Qed.

Lemma snapLess_le x y : snapLess x y = true → snapLe x y.
Proof.
  unfold snapLess, snapLe. intros [H|[H1 H2]%andb_prop]%orb_prop.
  - apply Z.ltb_lt in H. lia.
  - apply Z.eqb_eq in H1. apply N.ltb_lt in H2. lia.
Qed.

Lemma insertStable_HdRel a x l :
  snapLe a x → HdRel snapLe a l → HdRel snapLe a (insertStable x l).
Proof.
  intros Hax Hl. destruct l as [|y l]; cbn [insertStable]; [by constructor|].
  destruct (snapLess y x); constructor; [by inversion Hl | done].
Qed.

Lemma insertStable_sorted x l :
  Sorted snapLe l → Sorted snapLe (insertStable x l).
Proof.
  induction l as [|y l IH]; cbn [insertStable]; intros Hs.
  - by repeat constructor.
  - apply Sorted_inv in Hs as [Hs Hhd].
    destruct (snapLess y x) eqn:Hyx.
    + constructor; [by apply IH|].
      apply insertStable_HdRel; [by apply snapLess_le | done].
    + constructor; [by constructor|]. constructor. by apply snapLess_total.
Qed.

Lemma sortStable_sorted l : Sorted snapLe (sortStable l).
Proof.
  induction l as [|x l IH]; cbn; [constructor | by apply insertStable_sorted].
Qed.

(** When the consumer has seen a number go down, the batch is sorted. *)
Lemma batchOrder_sorted snaps : Sorted snapLe (batchOrder snaps false).
Proof.
  unfold batchOrder. cbn [negb andb].
  destruct (1 <? Z.of_nat (length snaps)) eqn:Hlen; [apply sortStable_sorted|].
  apply Z.ltb_ge in Hlen.
  destruct snaps as [|x [|y snaps]]; [constructor | by repeat constructor |].
  cbn [length] in Hlen. lia.
Qed.

(** C6 at two forks of one height. The items (5, hash 2) and (5, hash 1)
    arrive in this order; the numbers do not go down, so [isSorted] stays
    set, and the flush on the ticker appends them as they came: the one
    physical batch is not in (number, hash) order. *)
Theorem equal_numbers_flushed_unsorted :
  batches <$> run (startWriter emptyDatabase) Scenario.forkTrace
    = Some [[Scenario.item 5 2%N; Scenario.item 5 1%N]] ∧
  ¬ Sorted snapLe [Scenario.item 5 2%N; Scenario.item 5 1%N].
Proof.
  split; [vm_compute; reflexivity|].
  intros [_ Hhd]%Sorted_inv. apply HdRel_inv in Hhd.
  unfold snapLe in Hhd. cbn in Hhd. lia.
Qed.

(** ** Closing the writer *)

(** C9 at one queued item. The item is on the queue before [Close]; a
    later [save] sees the close signal, sets [chStatus] and closes the
    queue; the consumer then receives the item, appends it to its buffer,
    finds [chStatus == 1] and the queue empty, and returns. No batch was
    written and the item is not in the database. *)
Theorem close_leaves_item_unwritten :
  (ch ∘ stor) <$> run (startWriter emptyDatabase) [Scenario.saveItem 7 1%N]
    = Some [Scenario.item 7 1%N] ∧
  ∃ w, run (startWriter emptyDatabase) Scenario.closeTrace = Some w ∧
       consumer w = Returned ∧
       snaps w = [Scenario.item 7 1%N] ∧
       batches w = [] ∧
       ¬ committed (db (stor w)) (Scenario.item 7 1%N).
Proof.
  split; [vm_compute; reflexivity|].
  eexists. split; [vm_compute; reflexivity|].
  repeat split. intros H. vm_compute in H. discriminate.
Qed.

(** * Further properties of the code *)

(** ** signers and inturn *)

Lemma signers_NoDup s : NoDup (signers s).
Proof.
  unfold signers. rewrite merge_sort_Permutation. apply NoDup_elements.
Qed.

Lemma sorted_le_distinct_lt (l : list Address) :
  StronglySorted N.le l → NoDup l → StronglySorted N.lt l.
Proof.
  induction 1 as [|a l Hs IH Hall]; intros Hnd; [constructor|].
  apply NoDup_cons in Hnd as [Ha Hnd]. constructor; [by apply IH|].
  apply Forall_forall. intros b Hb.
  pose proof (proj1 (Forall_forall _ _) Hall b Hb) as Hle.
  assert (a ≠ b) by (intros ->; done). lia.
Qed.

(** [signers] lists exactly the members of the signer set, each once, in
    strictly ascending byte order; for a genesis snapshot these are the
    seed addresses, whatever their order and repetitions in the seed. *)
Theorem signers_strictly_ascending (s : Snapshot) :
  StronglySorted N.lt (signers s) ∧
  (∀ a, a ∈ signers s ↔ a ∈ Signers s) ∧
  ∀ cfg n h seed a, a ∈ signers (newSnapshot cfg n h seed) ↔ a ∈ seed.
Proof.
  split; [|split].
  - apply sorted_le_distinct_lt; [|apply signers_NoDup].
    apply (StronglySorted_merge_sort N.le).
  - apply signers_elem.
  - intros cfg n h seed a. rewrite signers_elem. cbn [newSnapshot Signers].
    apply elem_of_list_to_set.
Qed.

Lemma scanOffset_index rest a offset (i : nat) :
  NoDup rest → rest !! i = Some a →
  scanOffset rest a offset = offset + Z.of_nat i.
Proof.
  revert offset i. induction rest as [|b rest IH]; intros offset i Hnd Hi.
  - done.
  - apply NoDup_cons in Hnd as [Hb Hnd]. cbn [scanOffset].
    destruct i as [|i]; cbn in Hi.
    + injection Hi as ->. rewrite N.eqb_refl. lia.
    + destruct (N.eqb_spec b a) as [->|_].
      * exfalso. apply Hb. by eapply list_elem_of_lookup_2.
      * rewrite (IH _ i) by done. lia.
Qed.

(** For a non-empty signer set, the address in turn at a block number is
    the one that stands at position [number mod len(signers)] of the
    sorted signer list, and no other: every height has exactly one
    in-turn signer. *)
Theorem inturn_designates (s : Snapshot) (number : Z) (addr : Address) :
  Signers s ≠ ∅ →
  (inturn s number addr = Some true ↔
   signers s !! Z.to_nat (number mod lenSigners s) = Some addr).
Proof.
  intros Hne.
  assert (0 < lenSigners s) as Hpos.
  { unfold lenSigners.
    assert (size (Signers s) ≠ 0%nat) by (by intros ?%size_empty_inv%leibniz_equiv).
    lia. }
  pose proof (Z.mod_pos_bound number (lenSigners s) Hpos) as Hmod.
  unfold inturn. rewrite signers_length.
  destruct (lenSigners s =? 0) eqn:Hz; [apply Z.eqb_eq in Hz; lia|].
  destruct (decide (addr ∈ signers s)) as [Hin|Hout].
  - apply list_elem_of_lookup in Hin as [i Hi].
    rewrite (scanOffset_index _ _ _ i (signers_NoDup s) Hi), Z.add_0_l.
    split.
    + intros [= Heq%Z.eqb_eq]. rewrite Heq, Nat2Z.id. exact Hi.
    + intros Hlook. f_equal. apply Z.eqb_eq.
      pose proof (NoDup_lookup _ _ _ _ (signers_NoDup s) Hi Hlook) as ->.
      lia.
  - rewrite scanOffset_absent, signers_length by done. split.
    + intros [= Heq%Z.eqb_eq]. lia.
    + intros Hlook. exfalso. apply Hout. by eapply list_elem_of_lookup_2.
Qed.

Lemma inturn_designates_witness :
  inturn Scenario.trio 4 Scenario.B = Some true ↔
  signers Scenario.trio !! Z.to_nat (4 mod lenSigners Scenario.trio)
    = Some Scenario.B.
Proof.
  apply (inturn_designates Scenario.trio 4 Scenario.B).
  vm_compute. set_solver.
Defined.

(** ** cast and uncast *)

Lemma set_Tally_same s : set_Tally s (STally s) = s.
Proof. by destruct s. Qed.

(** A vote that [cast] has counted is taken back by [uncast] with the
    same flag: the snapshot is the one before the [cast], provided the
    candidate's tally, if there was one, had the same flag and a count
    from 1 up to below the largest [int]. *)
Theorem cast_then_uncast (s s1 : Snapshot) (a : Address) (b : bool) :
  cast s a b = (s1, true) →
  (∀ t, STally s !! a = Some t → Authorize t = b ∧ 1 ≤ Votes t < maxInt) →
  uncast s1 a b = (s, true).
Proof.
  unfold cast. intros Hcast Hold.
  destruct (negb (validVote s a b)); [done|].
  destruct (STally s !! a) as [old|] eqn:Hat; injection Hcast as <-;
    unfold uncast; cbn [STally set_Tally]; rewrite lookup_insert_eq;
    cbn [Authorize Votes].
  - destruct (Hold old eq_refl) as [<- Hv].
    rewrite eqb_reflx. cbn [negb].
    rewrite wrapInt_id by (unfold minInt, maxInt in *; lia).
    assert ((1 <? Votes old + 1) = true) as -> by (apply Z.ltb_lt; lia).
    f_equal. unfold set_Tally. cbn.
    rewrite insert_insert_eq.
    replace (Votes old + 1 - 1) with (Votes old) by lia.
    rewrite (insert_id (STally s) a); [by destruct s | by destruct old].
  - rewrite eqb_reflx. cbn. f_equal. unfold set_Tally. cbn.
    rewrite delete_insert_eq, delete_id by done. by destruct s.
Qed.

Lemma cast_then_uncast_witness :
  uncast (fst (cast Scenario.afterBX Scenario.X true)) Scenario.X true
    = (Scenario.afterBX, true).
Proof.
  apply (cast_then_uncast Scenario.afterBX _ Scenario.X true).
  - vm_compute. reflexivity.
  - intros t Ht.
    assert (STally Scenario.afterBX !! Scenario.X = Some (mkTally true 1)) as Hx
      by (vm_compute; reflexivity).
    rewrite Hx in Ht. injection Ht as <-. vm_compute. by repeat split.
Defined.

(** ** The loop body of apply, step by step *)

Lemma uncast_headOf s a b : headOf (fst (uncast s a b)) = headOf s.
Proof. unfold uncast. by repeat case_match. Qed.

Lemma cast_headOf s a b : headOf (fst (cast s a b)) = headOf s.
Proof. unfold cast. by repeat case_match. Qed.

Lemma evictRecent_headOf s n : headOf (evictRecent s n) = headOf s.
Proof. unfold evictRecent. by case_match. Qed.

Lemma checkpointReset_headOf s n : headOf (checkpointReset s n) = headOf s.
Proof. unfold checkpointReset. by case_match. Qed.

Lemma checkpointReset_Signers s n : Signers (checkpointReset s n) = Signers s.
Proof. unfold checkpointReset. by case_match. Qed.

Lemma checkpointReset_Recents s n : Recents (checkpointReset s n) = Recents s.
Proof. unfold checkpointReset. by case_match. Qed.

Lemma discardPrevious_headOf s votes signer coinbase :
  headOf (fst (discardPrevious s votes signer coinbase)) = headOf s.
Proof.
  induction votes as [|v votes IH]; cbn [discardPrevious]; [done|].
  case_match; cbn [fst]; [apply uncast_headOf|].
  by destruct (discardPrevious s votes signer coinbase).
Qed.

Lemma discardVotesBy_headOf s votes who :
  headOf (fst (discardVotesBy s votes who)) = headOf s.
Proof.
  revert s. induction votes as [|v votes IH]; intros s; cbn [discardVotesBy]; [done|].
  case_match.
  - rewrite IH. apply uncast_headOf.
  - specialize (IH s). by destruct (discardVotesBy s votes who).
Qed.

Lemma uncast_Recents s a b : Recents (fst (uncast s a b)) = Recents s.
Proof. unfold uncast. by repeat case_match. Qed.

Lemma cast_Recents s a b : Recents (fst (cast s a b)) = Recents s.
Proof. unfold cast. by repeat case_match. Qed.

Lemma discardPrevious_Recents s votes signer coinbase :
  Recents (fst (discardPrevious s votes signer coinbase)) = Recents s.
Proof.
  induction votes as [|v votes IH]; cbn [discardPrevious]; [done|].
  case_match; cbn [fst]; [apply uncast_Recents|].
  by destruct (discardPrevious s votes signer coinbase).
Qed.

Lemma discardVotesBy_Recents s votes who :
  Recents (fst (discardVotesBy s votes who)) = Recents s.
Proof.
  revert s. induction votes as [|v votes IH]; intros s; cbn [discardVotesBy]; [done|].
  case_match.
  - rewrite IH. apply uncast_Recents.
  - specialize (IH s). by destruct (discardVotesBy s votes who).
Qed.

Lemma resolve_headOf s coinbase n : headOf (resolve s coinbase n) = headOf s.
Proof.
  unfold resolve. destruct (_ <? _); [|done].
  destruct (Authorize _); [done|].
  pose proof (discardVotesBy_headOf
    (evictRecent (set_Signers s (Signers s ∖ {[coinbase]})) n)
    (SVotes (evictRecent (set_Signers s (Signers s ∖ {[coinbase]})) n))
    coinbase) as Hby.
  destruct (discardVotesBy _ _ _) as [s'' votes]. cbn [fst] in Hby.
  rewrite evictRecent_headOf in Hby. unfold headOf in *. cbn in *. congruence.
Qed.

Lemma recentlySigned_spec (recents : gmap Z Address) (signer : Address) :
  recentlySigned recents signer = true ↔ ∃ k, recents !! k = Some signer.
Proof.
  unfold recentlySigned. rewrite existsb_exists. split.
  - intros [[k a] [Hin Heq]]. apply N.eqb_eq in Heq. cbn in Heq. subst a.
    exists k. apply elem_of_map_to_list. by apply list_elem_of_In.
  - intros [k Hk]. exists (k, signer). split.
    + apply list_elem_of_In. by apply elem_of_map_to_list.
    + apply N.eqb_refl.
Qed.

Section LoopBody.
Variable ecrecover : Header → error + Address.
Variables nonceAuthVote nonceDropVote : Nonce.

(** What [tallyHeader] has done when it lets the header through. *)
Lemma tallyHeader_ok_inv s header s' :
  tallyHeader ecrecover nonceAuthVote nonceDropVote s header = (s', ok) →
  Epoch (config s) ≠ 0 ∧
  ∃ signer authorize,
    ecrecover header = inr signer ∧
    decodeVote nonceAuthVote nonceDropVote (HNonce header) = Some authorize ∧
    signer ∈ Signers s ∧
    let s0 := evictRecent (checkpointReset s (Number header)) (Number header) in
    recentlySigned (Recents s0) signer = false ∧
    let s2 := set_Recents s0 (<[Number header := signer]> (Recents s0)) in
    let d := discardPrevious s2 (SVotes s2) signer (Coinbase header) in
    let c := cast (set_Votes (fst d) (snd d)) (Coinbase header) authorize in
    s' = if snd c
         then set_Votes (fst c)
                (SVotes (fst c) ++
                   [mkVote signer (Number header) (Coinbase header) authorize])
         else fst c.
Proof.
  unfold tallyHeader. fold (checkpointReset s (Number header)).
  destruct (Z.eqb_spec (Epoch (config s)) 0) as [|Hep]; [done|].
  intros H. split; [done|].
  destruct (ecrecover header) as [e|signer]; [done|].
  destruct (isSigner _ signer) eqn:Hsig; cbn [negb] in H; [|done].
  destruct (recentlySigned _ signer) eqn:Hrec; [done|].
  destruct (discardPrevious _ _ signer (Coinbase header)) as [s3 votes] eqn:Hd.
  destruct (decodeVote _ _ _) as [authorize|]; [|done].
  exists signer, authorize. split; [done|]. split; [done|]. split.
  { unfold isSigner in Hsig. apply bool_decide_eq_true in Hsig.
    by rewrite evictRecent_Signers, checkpointReset_Signers in Hsig. }
  cbv zeta. split; [done|]. rewrite Hd. cbn [fst snd].
  destruct (cast (set_Votes s3 votes) (Coinbase header) authorize) as [s4 []];
    by injection H as <-.
Qed.

(** The result of [tallyHeader]: the checks in their order. *)
Lemma tallyHeader_result s header :
  snd (tallyHeader ecrecover nonceAuthVote nonceDropVote s header) =
  if Epoch (config s) =? 0 then panic else
  match ecrecover header with
  | inl e => fail e
  | inr signer =>
      if negb (isSigner s signer) then fail errUnauthorizedSigner
      else if recentlySigned (Recents (evictRecent s (Number header))) signer
      then fail errRecentlySigned
      else match decodeVote nonceAuthVote nonceDropVote (HNonce header) with
           | None => fail errInvalidVote
           | Some _ => ok
           end
  end.
Proof.
  unfold tallyHeader. fold (checkpointReset s (Number header)).
  destruct (Epoch (config s) =? 0); [done|].
  destruct (ecrecover header) as [e|signer]; [done|].
  assert (isSigner (evictRecent (checkpointReset s (Number header)) (Number header)) signer
          = isSigner s signer) as ->.
  { unfold isSigner. by rewrite evictRecent_Signers, checkpointReset_Signers. }
  destruct (isSigner s signer); cbn [negb]; [|done].
  assert (Recents (evictRecent (checkpointReset s (Number header)) (Number header))
          = Recents (evictRecent s (Number header))) as ->.
  { unfold evictRecent, lenSigners.
    rewrite checkpointReset_Signers.
    case_match; cbn [Recents set_Recents]; by rewrite checkpointReset_Recents. }
  destruct (recentlySigned _ signer); [done|].
  destruct (discardPrevious _ _ signer (Coinbase header)) as [s3 votes].
  destruct (decodeVote _ _ _) as [authorize|]; [|done].
  by destruct (cast (set_Votes s3 votes) (Coinbase header) authorize) as [s4 []].
Qed.

Lemma tallyHeader_headOf s header :
  headOf (fst (tallyHeader ecrecover nonceAuthVote nonceDropVote s header))
    = headOf s.
Proof.
  unfold tallyHeader. fold (checkpointReset s (Number header)).
  destruct (Epoch (config s) =? 0); [done|].
  assert (headOf (evictRecent (checkpointReset s (Number header)) (Number header))
          = headOf s) as H0
    by (by rewrite evictRecent_headOf, checkpointReset_headOf).
  destruct (ecrecover header) as [e|signer]; [done|].
  destruct (negb _); [done|].
  destruct (recentlySigned _ signer); [done|].
  set (s2 := set_Recents _ _).
  assert (headOf s2 = headOf s) as H2 by (subst s2; exact H0).
  pose proof (discardPrevious_headOf s2 (SVotes s2) signer (Coinbase header)) as H3.
  destruct (discardPrevious s2 (SVotes s2) signer (Coinbase header)) as [s3 votes].
  cbn [fst] in H3.
  destruct (decodeVote _ _ _) as [authorize|]; cbn [fst];
    [|unfold headOf in *; cbn in *; congruence].
  pose proof (cast_headOf (set_Votes s3 votes) (Coinbase header) authorize) as H4.
  destruct (cast (set_Votes s3 votes) (Coinbase header) authorize) as [s4 []];
    unfold headOf in *; cbn in *; congruence.
Qed.

Lemma applyHeader_headOf s header :
  headOf (fst (applyHeader ecrecover nonceAuthVote nonceDropVote s header))
    = headOf s.
Proof.
  unfold applyHeader. pose proof (tallyHeader_headOf s header) as H.
  destruct (tallyHeader _ _ _ s header) as [sc []]; cbn [fst] in *; [|done..].
  by rewrite resolve_headOf.
Qed.

Lemma applyLoop_headOf headers s :
  headOf (fst (applyLoop ecrecover nonceAuthVote nonceDropVote s headers))
    = headOf s.
Proof.
  revert s. induction headers as [|header headers IH]; intros s; [done|].
  cbn [applyLoop]. pose proof (applyHeader_headOf s header) as H.
  destruct (applyHeader _ _ _ s header) as [s1 []]; cbn [fst] in *; [|done..].
  by rewrite IH.
Qed.

Lemma apply_head_aux (s : Snapshot) (headers : list Header) (first : Header) :
  let r := apply ecrecover nonceAuthVote nonceDropVote s (first :: headers) in
  config (fst r) = config s ∧
  match snd r with
  | ok => SNumber (fst r) = wrap64 (SNumber s + Z.of_nat (length (first :: headers))) ∧
          SHash (fst r) = HeaderHash (List.last (first :: headers) first)
  | _ => SNumber (fst r) = SNumber s ∧ SHash (fst r) = SHash s
  end.
Proof.
  cbv zeta. unfold apply.
  destruct (negb (contiguous _)); [done|].
  destruct (negb (_ =? _)); [done|].
  pose proof (applyLoop_headOf (rev (first :: headers)) s) as H.
  destruct (applyLoop _ _ _ s (rev (first :: headers))) as [s1 []];
    unfold headOf in H; cbn [fst snd] in *; injection H as Hc Hn Hh.
  - cbn [set_Head config SNumber SHash]. by rewrite Hn.
  - done.
  - done.
Qed.

(** A successful [apply] of a non-empty run moves the snapshot to the
    number [snapshot.number + len(headers)] ([uint64]) and to the hash of
    the last header. Any other outcome leaves number and hash as they
    were; the configuration is never touched. *)
Theorem apply_head (s : Snapshot) (headers : list Header) (first : Header) :
  let r := apply ecrecover nonceAuthVote nonceDropVote s (first :: headers) in
  config (fst r) = config s ∧
  match snd r with
  | ok => SNumber (fst r) = wrap64 (SNumber s + Z.of_nat (length (first :: headers))) ∧
          SHash (fst r) = HeaderHash (List.last (first :: headers) first)
  | _ => SNumber (fst r) = SNumber s ∧ SHash (fst r) = SHash s
  end.
Proof. exact (apply_head_aux s headers first). Qed.

Lemma apply_one_header_result_aux (s : Snapshot) (header : Header) :
  snd (apply ecrecover nonceAuthVote nonceDropVote s [header]) =
  if negb (Number header =? wrap64 (SNumber s + 1)) then fail errInvalidVotingChain
  else if Epoch (config s) =? 0 then panic else
  match ecrecover header with
  | inl e => fail e
  | inr signer =>
      if negb (isSigner s signer) then fail errUnauthorizedSigner
      else if recentlySigned (Recents (evictRecent s (Number header))) signer
      then fail errRecentlySigned
      else match decodeVote nonceAuthVote nonceDropVote (HNonce header) with
           | None => fail errInvalidVote
           | Some _ => ok
           end
  end.
Proof.
  unfold apply. cbn [contiguous negb rev app applyLoop].
  destruct (negb (_ =? _)); [done|].
  rewrite <- tallyHeader_result. unfold applyHeader.
  by destruct (tallyHeader _ _ _ s header) as [sc []].
Qed.

(** Whether one header is let through, and with which error it is
    refused, is settled by the header, the epoch, the signer set and the
    recents alone, in this order: the number must follow the snapshot's,
    the signature must recover, the signer must be authorized and must
    not stand in the recents (after the eviction for this number), and
    the nonce must be one of the two vote nonces. Pending votes and the
    tally never decide. *)
Theorem apply_one_header_result (s : Snapshot) (header : Header) :
  snd (apply ecrecover nonceAuthVote nonceDropVote s [header]) =
  if negb (Number header =? wrap64 (SNumber s + 1)) then fail errInvalidVotingChain
  else if Epoch (config s) =? 0 then panic else
  match ecrecover header with
  | inl e => fail e
  | inr signer =>
      if negb (isSigner s signer) then fail errUnauthorizedSigner
      else if recentlySigned (Recents (evictRecent s (Number header))) signer
      then fail errRecentlySigned
      else match decodeVote nonceAuthVote nonceDropVote (HNonce header) with
           | None => fail errInvalidVote
           | Some _ => ok
           end
  end.
Proof. exact (apply_one_header_result_aux s header). Qed.
End LoopBody.

(** ** Recents *)

Lemma evictRecent_lookup_same s n :
  Recents (evictRecent s n) !! n = Recents s !! n.
Proof.
  unfold evictRecent, lenSigners. case_match; [|done].
  cbn [Recents set_Recents]. apply lookup_delete_ne.
  pose proof (Z.div_pos (Z.of_nat (size (Signers s))) 2 ltac:(lia) ltac:(lia)).
  lia.
Qed.

Lemma evictRecent_lookup_Some s n k a :
  Recents (evictRecent s n) !! k = Some a → Recents s !! k = Some a.
Proof.
  unfold evictRecent. case_match; [|done]. cbn [Recents set_Recents].
  rewrite lookup_delete. by case_decide.
Qed.

Lemma resolve_Recents_same s coinbase n :
  Recents (resolve s coinbase n) !! n = Recents s !! n.
Proof.
  unfold resolve. destruct (_ <? _); [|done].
  destruct (Authorize _); [done|].
  pose proof (discardVotesBy_Recents
    (evictRecent (set_Signers s (Signers s ∖ {[coinbase]})) n)
    (SVotes (evictRecent (set_Signers s (Signers s ∖ {[coinbase]})) n))
    coinbase) as Hby.
  destruct (discardVotesBy _ _ _) as [s'' votes]. cbn [fst] in Hby.
  cbn [Recents set_Tally set_Votes]. rewrite Hby.
  by rewrite evictRecent_lookup_same.
Qed.

Lemma resolve_Recents_Some s coinbase n k a :
  Recents (resolve s coinbase n) !! k = Some a → Recents s !! k = Some a.
Proof.
  unfold resolve. destruct (_ <? _); [|done].
  destruct (Authorize _); [done|].
  pose proof (discardVotesBy_Recents
    (evictRecent (set_Signers s (Signers s ∖ {[coinbase]})) n)
    (SVotes (evictRecent (set_Signers s (Signers s ∖ {[coinbase]})) n))
    coinbase) as Hby.
  destruct (discardVotesBy _ _ _) as [s'' votes]. cbn [fst] in Hby.
  cbn [Recents set_Tally set_Votes]. rewrite Hby.
  intros Hk. by apply evictRecent_lookup_Some in Hk.
Qed.

Lemma recentsDistinct_sub s s' :
  (∀ k a, Recents s' !! k = Some a → Recents s !! k = Some a) →
  recentsDistinct s → recentsDistinct s'.
Proof. intros Hsub Hd k1 k2 a H1 H2. eapply Hd; eauto. Qed.

Section Recents.
Variable ecrecover : Header → error + Address.
Variables nonceAuthVote nonceDropVote : Nonce.

Lemma tallyHeader_recorded s header s' signer :
  tallyHeader ecrecover nonceAuthVote nonceDropVote s header = (s', ok) →
  ecrecover header = inr signer →
  Recents s' =
    <[Number header := signer]>
      (Recents (evictRecent (checkpointReset s (Number header)) (Number header))).
Proof.
  intros H Hrec.
  apply tallyHeader_ok_inv in H as (_ & signer' & authorize & Hrec' & _ & _ & H).
  rewrite Hrec in Hrec'. injection Hrec' as <-.
  cbv zeta in H. destruct H as [_ ->].
  set (s2 := set_Recents _ _).
  pose proof (discardPrevious_Recents s2 (SVotes s2) signer (Coinbase header)) as Hd.
  pose proof (cast_Recents
    (set_Votes (fst (discardPrevious s2 (SVotes s2) signer (Coinbase header)))
               (snd (discardPrevious s2 (SVotes s2) signer (Coinbase header))))
    (Coinbase header) authorize) as Hc.
  destruct (cast _ (Coinbase header) authorize) as [s4 []];
    cbn [fst snd Recents set_Votes] in *; by rewrite Hc, Hd.
Qed.

Lemma tallyHeader_distinct_recents s header :
  recentsDistinct s →
  recentsDistinct
    (fst (tallyHeader ecrecover nonceAuthVote nonceDropVote s header)).
Proof.
  intros Hd.
  assert (recentsDistinct
            (evictRecent (checkpointReset s (Number header)) (Number header))) as H0.
  { eapply recentsDistinct_sub; [|exact Hd]. intros k a Hk.
    apply evictRecent_lookup_Some in Hk. by rewrite checkpointReset_Recents in Hk. }
  destruct (tallyHeader ecrecover nonceAuthVote nonceDropVote s header)
    as [s' r] eqn:Ht.
  assert (r = ok ∨ r ≠ ok) as [->|Hr] by (destruct r; auto).
  - pose proof Ht as Hinv.
    apply tallyHeader_ok_inv in Hinv as (_ & signer & authorize & Hrec & _ & _ & Hnew & _).
    cbn [fst]. pose proof (tallyHeader_recorded _ _ _ _ Ht Hrec) as HR.
    intros k1 k2 a. rewrite HR, !lookup_insert.
    assert (∀ k, Recents (evictRecent (checkpointReset s (Number header))
                            (Number header)) !! k ≠ Some signer) as Hfresh.
    { intros k Hk.
      assert (recentlySigned (Recents (evictRecent (checkpointReset s (Number header))
                (Number header))) signer = true) as Hyes
        by (apply recentlySigned_spec; eauto).
      congruence. }
    repeat case_decide; subst; intros Hk1 Hk2; try done.
    + injection Hk1 as <-. by apply Hfresh in Hk2.
    + injection Hk2 as <-. by apply Hfresh in Hk1.
    + by apply (H0 k1 k2 a).
  - cbn [fst]. unfold tallyHeader in Ht.
    fold (checkpointReset s (Number header)) in Ht.
    destruct (Epoch (config s) =? 0); [by injection Ht as <- _|].
    destruct (ecrecover header) as [e|signer]; [by injection Ht as <- _|].
    destruct (negb _); [by injection Ht as <- _|].
    destruct (recentlySigned _ signer) eqn:Hnew; [by injection Ht as <- _|].
    set (s2 := set_Recents _ _) in Ht.
    pose proof (discardPrevious_Recents s2 (SVotes s2) signer (Coinbase header)) as Hdp.
    destruct (discardPrevious s2 (SVotes s2) signer (Coinbase header)) as [s3 votes].
    cbn [fst] in Hdp.
    destruct (decodeVote _ _ _) as [authorize|].
    { destruct (cast (set_Votes s3 votes) (Coinbase header) authorize) as [s4 []];
        injection Ht as _ <-; done. }
    injection Ht as <- _. intros k1 k2 a.
    cbn [Recents set_Votes]. rewrite Hdp. subst s2. cbn [Recents set_Recents].
    rewrite !lookup_insert.
    assert (∀ k, Recents (evictRecent (checkpointReset s (Number header))
                            (Number header)) !! k ≠ Some signer) as Hfresh.
    { intros k Hk.
      assert (recentlySigned (Recents (evictRecent (checkpointReset s (Number header))
                (Number header))) signer = true) as Hyes
        by (apply recentlySigned_spec; eauto).
      congruence. }
    repeat case_decide; subst; intros Hk1 Hk2; try done.
    + injection Hk1 as <-. by apply Hfresh in Hk2.
    + injection Hk2 as <-. by apply Hfresh in Hk1.
    + by apply (H0 k1 k2 a).
Qed.

Lemma applyLoop_distinct_recents headers s :
  recentsDistinct s →
  recentsDistinct
    (fst (applyLoop ecrecover nonceAuthVote nonceDropVote s headers)).
Proof.
  revert s. induction headers as [|header headers IH]; intros s Hd; [done|].
  cbn [applyLoop]. unfold applyHeader.
  pose proof (tallyHeader_distinct_recents s header Hd) as H.
  destruct (tallyHeader _ _ _ s header) as [sc []]; cbn [fst] in *; [|done..].
  apply IH. eapply recentsDistinct_sub; [|exact H].
  intros k a. apply resolve_Recents_Some.
Qed.

(** The anti-spam invariant of the recents: when no address stands under
    two block numbers before [apply], none does after it, whether
    [apply] succeeds or fails. *)
Theorem apply_keeps_recents_distinct (s : Snapshot) (headers : list Header) :
  recentsDistinct s →
  recentsDistinct (fst (apply ecrecover nonceAuthVote nonceDropVote s headers)).
Proof.
  intros Hd. unfold apply. destruct headers as [|first rest]; [done|].
  destruct (negb (contiguous _)); [done|].
  destruct (negb (_ =? _)); [done|].
  pose proof (applyLoop_distinct_recents (rev (first :: rest)) s Hd) as H.
  by destruct (applyLoop _ _ _ s (rev (first :: rest))) as [s1 []].
Qed.

(** A signer that sealed the block just applied cannot seal the next one:
    with at least two signers, and the signer still authorized, the call
    for the next block returns [errRecentlySigned]. *)
Theorem next_block_same_signer (s s1 : Snapshot) (h1 h2 : Header) (a : Address) :
  apply ecrecover nonceAuthVote nonceDropVote s [h1] = (s1, ok) →
  ecrecover h1 = inr a → ecrecover h2 = inr a →
  a ∈ Signers s1 → 2 ≤ lenSigners s1 →
  Number h2 = Number h1 + 1 → Number h2 = wrap64 (SNumber s1 + 1) →
  snd (apply ecrecover nonceAuthVote nonceDropVote s1 [h2]) = fail errRecentlySigned.
Proof.
  intros Happ Hr1 Hr2 Hin Hlen Hnext Hchain.
  pose proof (apply_head_aux ecrecover nonceAuthVote nonceDropVote s [] h1) as Hhead.
  cbv zeta in Hhead. rewrite Happ in Hhead. cbn [fst snd] in Hhead.
  destruct Hhead as [Hcfg _].
  unfold apply in Happ. cbn [contiguous negb rev app applyLoop] in Happ.
  destruct (negb (_ =? _)); [done|]. unfold applyHeader in Happ.
  destruct (tallyHeader _ _ _ s h1) as [sc r] eqn:Ht.
  destruct r; [|done..]. injection Happ as <-.
  pose proof (tallyHeader_ok_inv _ _ _ _ _ _ Ht) as [Hep _].
  pose proof (tallyHeader_recorded _ _ _ _ Ht Hr1) as HR.
  set (s1 := set_Head _ _ _) in *.
  assert (Recents s1 !! Number h1 = Some a) as Hrec.
  { subst s1. cbn [Recents set_Head]. rewrite resolve_Recents_same, HR.
    apply lookup_insert_eq. }
  rewrite apply_one_header_result_aux, Hr2.
  apply Z.eqb_eq in Hchain as ->. cbn [negb].
  replace (config s1) with (config s) by done.
  apply Z.eqb_neq in Hep as ->.
  unfold isSigner. rewrite bool_decide_eq_true_2 by done. cbn [negb].
  assert (recentlySigned (Recents (evictRecent s1 (Number h2))) a = true) as ->;
    [|done].
  apply recentlySigned_spec. exists (Number h1).
  unfold evictRecent. case_match; [|done].
  cbn [Recents set_Recents]. rewrite lookup_delete_ne; [done|].
  assert (1 ≤ lenSigners s1 / 2) by (apply Z.div_le_lower_bound; lia). lia.
Qed.

(** [apply] is not atomic. A header that passes every check but the one
    on its nonce is refused with [errInvalidVote], and its signer has by
    then been written to the recents under the header's number: the
    snapshot is no longer the one passed in. *)
Theorem invalid_vote_leaves_trace (s : Snapshot) (header : Header) (signer : Address) :
  Number header = wrap64 (SNumber s + 1) → Epoch (config s) ≠ 0 →
  ecrecover header = inr signer → signer ∈ Signers s →
  recentlySigned (Recents (evictRecent s (Number header))) signer = false →
  decodeVote nonceAuthVote nonceDropVote (HNonce header) = None →
  let r := apply ecrecover nonceAuthVote nonceDropVote s [header] in
  snd r = fail errInvalidVote ∧
  Recents (fst r) !! Number header = Some signer ∧
  fst r ≠ s.
Proof.
  intros Hchain Hep Hrec Hin Hnew Hdec. cbv zeta.
  assert (Recents (fst (apply ecrecover nonceAuthVote nonceDropVote s [header]))
            !! Number header = Some signer) as HR.
  { unfold apply. cbn [contiguous negb rev app applyLoop].
    apply Z.eqb_eq in Hchain as ->. cbn [negb].
    unfold applyHeader, tallyHeader. fold (checkpointReset s (Number header)).
    apply Z.eqb_neq in Hep as ->. rewrite Hrec.
    assert (isSigner (evictRecent (checkpointReset s (Number header)) (Number header))
              signer = true) as ->.
    { unfold isSigner. apply bool_decide_eq_true.
      by rewrite evictRecent_Signers, checkpointReset_Signers. }
    cbn [negb].
    assert (Recents (evictRecent (checkpointReset s (Number header)) (Number header))
            = Recents (evictRecent s (Number header))) as HRe.
    { unfold evictRecent, lenSigners. rewrite checkpointReset_Signers.
      case_match; cbn [Recents set_Recents]; by rewrite checkpointReset_Recents. }
    rewrite HRe, Hnew.
    set (s2 := set_Recents _ _).
    pose proof (discardPrevious_Recents s2 (SVotes s2) signer (Coinbase header)) as Hd.
    destruct (discardPrevious s2 (SVotes s2) signer (Coinbase header)) as [s3 votes].
    rewrite Hdec. cbn [fst Recents set_Votes] in *. rewrite Hd. subst s2.
    cbn [Recents set_Recents]. apply lookup_insert_eq. }
  split; [|split; [exact HR|]].
  - rewrite apply_one_header_result_aux.
    apply Z.eqb_eq in Hchain as ->. apply Z.eqb_neq in Hep as ->.
    rewrite Hrec. unfold isSigner. rewrite bool_decide_eq_true_2 by done.
    cbn [negb]. by rewrite Hnew, Hdec.
  - intros Heq. rewrite Heq in HR.
    assert (recentlySigned (Recents (evictRecent s (Number header))) signer = true)
      as Hyes; [|congruence].
    apply recentlySigned_spec. exists (Number header).
    by rewrite evictRecent_lookup_same.
Qed.
End Recents.

(** ** Votes and tally *)

Lemma countFor_app c l1 l2 : countFor c (l1 ++ l2) = countFor c l1 + countFor c l2.
Proof. induction l1 as [|v l1 IH]; cbn [countFor app]; lia. Qed.

Lemma countFor_nonneg c l : 0 ≤ countFor c l.
Proof. induction l as [|v l IH]; cbn [countFor]; [lia|]. case_match; lia. Qed.

Lemma countFor_le_length c l : countFor c l ≤ Z.of_nat (length l).
Proof.
  induction l as [|v l IH]; cbn [countFor length]; [lia|]. case_match; lia.
Qed.

Lemma countFor_elem v l : v ∈ l → 1 ≤ countFor (VAddress v) l.
Proof.
  induction l as [|w l IH]; [by intros ?%elem_of_nil|].
  intros [->|Hin]%elem_of_cons; cbn [countFor].
  - rewrite N.eqb_refl. pose proof (countFor_nonneg (VAddress w) l). lia.
  - specialize (IH Hin). case_match; lia.
Qed.

Lemma countFor_zero c l v : countFor c l = 0 → v ∈ l → VAddress v ≠ c.
Proof.
  intros Hz Hin <-. pose proof (countFor_elem v l Hin). lia.
Qed.

Lemma countFor_discardVotesFor c' c l :
  countFor c' (discardVotesFor l c) = if N.eqb c' c then 0 else countFor c' l.
Proof.
  induction l as [|v l IH]; cbn [discardVotesFor countFor]; [by case_match|].
  destruct (N.eqb_spec (VAddress v) c) as [Hvc|Hvc]; cbn [countFor]; rewrite IH;
    destruct (N.eqb_spec c' c) as [Hc|Hc];
    destruct (N.eqb_spec (VAddress v) c') as [Hv|Hv]; subst; try done; lia.
Qed.

(** Taking one vote out of the list and uncasting it keeps votes and
    tally in step. *)
Lemma uncast_match s l1 v l2 :
  countsMatch (STally s) (l1 ++ v :: l2) →
  flagsMatch (STally s) (l1 ++ v :: l2) →
  countsMatch (STally (fst (uncast s (VAddress v) (VAuthorize v)))) (l1 ++ l2) ∧
  flagsMatch (STally (fst (uncast s (VAddress v) (VAuthorize v)))) (l1 ++ l2).
Proof.
  intros Hc Hf.
  assert (v ∈ l1 ++ v :: l2) as Hv by (apply elem_of_app; right; apply list_elem_of_here).
  pose proof (countFor_elem v _ Hv) as Hone.
  pose proof (Hc (VAddress v)) as Hcv.
  destruct (STally s !! VAddress v) as [t|] eqn:Ht; [|lia].
  destruct Hcv as [Hcount _].
  pose proof (Hf v t Hv Ht) as Hflag.
  assert (∀ c, countFor c (l1 ++ v :: l2)
               = countFor c (l1 ++ l2) + (if N.eqb (VAddress v) c then 1 else 0)) as Hsplit.
  { intros c. rewrite !countFor_app. cbn [countFor]. lia. }
  assert (∀ w, w ∈ l1 ++ l2 → w ∈ l1 ++ v :: l2) as Hsub.
  { intros w [?|?]%elem_of_app; apply elem_of_app; [by left | right; by constructor]. }
  unfold uncast. rewrite Ht, Hflag, eqb_reflx. cbn [negb].
  destruct (1 <? Votes t) eqn:Hgt; cbn [fst STally set_Tally].
  - apply Z.ltb_lt in Hgt. split.
    + intros c. rewrite lookup_insert. case_decide as Hdec.
      * subst c. cbn [Votes]. specialize (Hsplit (VAddress v)).
        rewrite N.eqb_refl in Hsplit. lia.
      * specialize (Hc c). specialize (Hsplit c).
        destruct (N.eqb_spec (VAddress v) c); [done|].
        rewrite Z.add_0_r in Hsplit. by rewrite <- Hsplit.
    + intros w t' Hw. rewrite lookup_insert. case_decide as Hdec.
      * intros [= <-]. cbn [Authorize]. rewrite Hdec in Ht.
        rewrite <- Hflag. by apply (Hf w t (Hsub w Hw)).
      * intros Hwt. by apply (Hf w t' (Hsub w Hw)).
  - apply Z.ltb_ge in Hgt. split.
    + intros c. rewrite lookup_delete. case_decide as Hdec.
      * subst c. specialize (Hsplit (VAddress v)).
        rewrite N.eqb_refl in Hsplit. lia.
      * specialize (Hc c). specialize (Hsplit c).
        destruct (N.eqb_spec (VAddress v) c); [done|].
        rewrite Z.add_0_r in Hsplit. by rewrite <- Hsplit.
    + intros w t' Hw. rewrite lookup_delete. case_decide as Hdec; [done|].
      intros Hwt. by apply (Hf w t' (Hsub w Hw)).
Qed.

(** [uncast] adds no entry and changes no flag. *)
Lemma uncast_entries s a b c t' :
  STally (fst (uncast s a b)) !! c = Some t' →
  ∃ t, STally s !! c = Some t ∧ Authorize t = Authorize t'.
Proof.
  unfold uncast. destruct (STally s !! a) as [t|] eqn:Ht; [|by eauto].
  destruct (negb _); [by eauto|].
  destruct (1 <? Votes t); cbn [fst STally set_Tally].
  - rewrite lookup_insert. case_decide as Hdec; [|by eauto].
    intros [= <-]. subst c. by exists t.
  - rewrite lookup_delete. case_decide; [done | by eauto].
Qed.

Lemma discardPrevious_split s votes signer coinbase :
  discardPrevious s votes signer coinbase = (s, votes) ∨
  ∃ l1 v l2, votes = l1 ++ v :: l2 ∧
    discardPrevious s votes signer coinbase
      = (fst (uncast s (VAddress v) (VAuthorize v)), l1 ++ l2).
Proof.
  induction votes as [|w votes IH]; cbn [discardPrevious]; [by left|].
  destruct (_ && _).
  - right. by exists [], w, votes.
  - destruct IH as [->|(l1 & v & l2 & -> & ->)]; [by left|].
    right. by exists (w :: l1), v, l2.
Qed.

Lemma discardVotesBy_match s pre votes who :
  countsMatch (STally s) (pre ++ votes) →
  flagsMatch (STally s) (pre ++ votes) →
  countsMatch (STally (fst (discardVotesBy s votes who)))
              (pre ++ snd (discardVotesBy s votes who)) ∧
  flagsMatch (STally (fst (discardVotesBy s votes who)))
             (pre ++ snd (discardVotesBy s votes who)).
Proof.
  revert s pre. induction votes as [|v votes IH]; intros s pre Hc Hf;
    cbn [discardVotesBy]; [done|].
  destruct (N.eqb _ _).
  - destruct (uncast_match s pre v votes Hc Hf) as [Hc' Hf'].
    by apply IH.
  - specialize (IH s (pre ++ [v])). rewrite <- !app_assoc in IH. cbn [app] in IH.
    specialize (IH Hc Hf).
    destruct (discardVotesBy s votes who) as [s' rest]. cbn [fst snd] in *.
    exact IH.
Qed.

Lemma discardVotesBy_entries s votes who c t' :
  STally (fst (discardVotesBy s votes who)) !! c = Some t' →
  ∃ t, STally s !! c = Some t ∧ Authorize t = Authorize t'.
Proof.
  revert s. induction votes as [|v votes IH]; intros s; cbn [discardVotesBy];
    [by eauto|].
  destruct (N.eqb _ _).
  - intros H. apply IH in H as (t1 & H1 & <-).
    by apply uncast_entries in H1.
  - specialize (IH s). by destruct (discardVotesBy s votes who).
Qed.

Lemma validVote_flag s c b1 b2 :
  validVote s c b1 = true → validVote s c b2 = true → b1 = b2.
Proof. unfold validVote. by destruct (isSigner s c), b1, b2. Qed.

Lemma validVote_Signers s s' c b :
  (c ∈ Signers s ↔ c ∈ Signers s') → validVote s c b = validVote s' c b.
Proof.
  intros H. unfold validVote, isSigner.
  by rewrite (bool_decide_ext _ _ H).
Qed.

Lemma resolve_tallied s coinbase n :
  votesTallied s → votesTallied (resolve s coinbase n).
Proof.
  intros (Hc & Hf & Hv). unfold resolve.
  destruct (_ <? _); [|done].
  set (s1 := if Authorize (tallyOf s coinbase) then _ else _).
  assert (countsMatch (STally s1) (SVotes s1) ∧ flagsMatch (STally s1) (SVotes s1) ∧
          (∀ c t', STally s1 !! c = Some t' →
                   ∃ t, STally s !! c = Some t ∧ Authorize t = Authorize t') ∧
          (∀ c, c ≠ coinbase → (c ∈ Signers s ↔ c ∈ Signers s1))) as (Hc1 & Hf1 & He1 & Hs1).
  { subst s1. destruct (Authorize _).
    - cbn. split; [done|]. split; [done|]. split; [by eauto|]. set_solver.
    - set (s0 := evictRecent (set_Signers s (Signers s ∖ {[coinbase]})) n).
      assert (STally s0 = STally s) as Ht0 by (subst s0; by rewrite evictRecent_Tally).
      assert (SVotes s0 = SVotes s) as Hv0 by (subst s0; by rewrite evictRecent_Votes).
      assert (Signers s0 = Signers s ∖ {[coinbase]}) as Hs0
        by (subst s0; by rewrite evictRecent_Signers).
      assert (countsMatch (STally s0) ([] ++ SVotes s0)) as Hc0
        by (by rewrite Ht0, Hv0).
      assert (flagsMatch (STally s0) ([] ++ SVotes s0)) as Hf0
        by (by rewrite Ht0, Hv0).
      pose proof (discardVotesBy_match s0 [] (SVotes s0) coinbase Hc0 Hf0) as Hm.
      pose proof (λ c t', discardVotesBy_entries s0 (SVotes s0) coinbase c t') as He.
      pose proof (discardVotesBy_Signers s0 (SVotes s0) coinbase) as Hsg.
      destruct (discardVotesBy s0 (SVotes s0) coinbase) as [s'' votes].
      cbn [app fst snd STally SVotes Signers set_Votes] in *.
      destruct Hm as [Hm1 Hm2]. split; [done|]. split; [done|]. split.
      + intros c t' Hct. rewrite <- Ht0. by apply He.
      + rewrite Hsg, Hs0. set_solver. }
  unfold votesTallied. cbv zeta. cbn [STally SVotes set_Tally set_Votes].
  split; [|split].
  - intros c. rewrite lookup_delete, countFor_discardVotesFor.
    case_decide as Hdec.
    + subst c. by rewrite N.eqb_refl.
    + destruct (N.eqb_spec c coinbase); [done|]. apply Hc1.
  - intros v t [Hin Hne]%discardVotesFor_spec.
    rewrite lookup_delete_ne by done. by apply Hf1.
  - intros c t. unfold tallyValid in Hv. cbn [STally set_Tally set_Votes].
    rewrite lookup_delete. case_decide as Hdec; [done|].
    intros Ht. apply He1 in Ht as (t0 & Ht0 & <-).
    rewrite <- (Hv c t0 Ht0). symmetry.
    apply validVote_Signers. cbn [Signers set_Tally set_Votes]. by apply Hs1.
Qed.

Lemma votesTallied_same s s' :
  STally s' = STally s → SVotes s' = SVotes s → Signers s' = Signers s →
  votesTallied s → votesTallied s'.
Proof.
  intros Ht Hv Hs (Hc & Hf & Hval). unfold votesTallied, tallyValid.
  rewrite Ht, Hv. split; [done|]. split; [done|].
  intros c t Hct. rewrite <- (Hval c t Hct).
  apply validVote_Signers. by rewrite Hs.
Qed.

Lemma discardPrevious_tallied s signer coinbase :
  votesTallied s →
  let d := discardPrevious s (SVotes s) signer coinbase in
  votesTallied (set_Votes (fst d) (snd d)) ∧
  (length (snd d) ≤ length (SVotes s))%nat.
Proof.
  intros (Hc & Hf & Hv). cbv zeta.
  destruct (discardPrevious_split s (SVotes s) signer coinbase)
    as [->|(l1 & v & l2 & Hsplit & ->)]; cbn [fst snd].
  - split; [|done]. by destruct s.
  - rewrite Hsplit in Hc, Hf.
    destruct (uncast_match s l1 v l2 Hc Hf) as [Hc' Hf'].
    split.
    + unfold votesTallied, tallyValid. cbn [STally SVotes set_Votes].
      split; [done|]. split; [done|].
      intros c t Hct. apply uncast_entries in Hct as (t0 & Ht0 & <-).
      rewrite <- (Hv c t0 Ht0). apply validVote_Signers.
      cbn [Signers set_Votes]. by rewrite uncast_Signers.
    + rewrite Hsplit, !length_app. cbn [length]. lia.
Qed.

Lemma cast_tallied s signer number coinbase authorize :
  votesTallied s → Z.of_nat (length (SVotes s)) < maxInt →
  let c := cast s coinbase authorize in
  votesTallied
    (if snd c
     then set_Votes (fst c)
            (SVotes (fst c) ++ [mkVote signer number coinbase authorize])
     else fst c).
Proof.
  intros (Hc & Hf & Hv) Hlen. cbv zeta. unfold cast.
  destruct (validVote s coinbase authorize) eqn:Hvalid; cbn [negb]; [|done].
  assert (∀ c, countFor c (SVotes s ++ [mkVote signer number coinbase authorize])
               = countFor c (SVotes s) + (if N.eqb coinbase c then 1 else 0)) as Hcnt.
  { intros c. rewrite countFor_app. cbn [countFor VAddress]. lia. }
  pose proof (Hc coinbase) as Hcb.
  destruct (STally s !! coinbase) as [old|] eqn:Hold; cbn [fst snd];
    unfold votesTallied, tallyValid; cbn [STally SVotes set_Tally set_Votes].
  - destruct Hcb as [Hcount Hpos].
    pose proof (countFor_le_length coinbase (SVotes s)) as Hle.
    assert (Authorize old = authorize) as Hflag
      by (eapply validVote_flag; [by apply (Hv coinbase old)|done]).
    rewrite wrapInt_id by (unfold minInt, maxInt in *; lia).
    split; [|split].
    + intros c. rewrite lookup_insert, Hcnt. case_decide as Hdec.
      * subst c. rewrite N.eqb_refl. cbn [Votes]. lia.
      * destruct (N.eqb_spec coinbase c); [done|]. rewrite Z.add_0_r. apply Hc.
    + intros w t Hw. rewrite lookup_insert. case_decide as Hdec.
      * intros [= <-]. cbn [Authorize].
        apply elem_of_app in Hw as [Hw|Hw];
          [|apply list_elem_of_singleton in Hw; by subst w].
        rewrite Hdec in Hold. by apply (Hf w old).
      * apply elem_of_app in Hw as [Hw|Hw];
          [|apply list_elem_of_singleton in Hw; by subst w].
        by apply Hf.
    + intros c t. rewrite lookup_insert. case_decide as Hdec.
      * intros [= <-]. subst c. cbn [Authorize].
        rewrite <- (Hv coinbase old Hold). by apply validVote_Signers.
      * intros Hct. rewrite <- (Hv c t Hct). by apply validVote_Signers.
  - split; [|split].
    + intros c. rewrite lookup_insert, Hcnt. case_decide as Hdec.
      * subst c. rewrite N.eqb_refl. cbn [Votes]. lia.
      * destruct (N.eqb_spec coinbase c); [done|]. rewrite Z.add_0_r. apply Hc.
    + intros w t Hw. rewrite lookup_insert. case_decide as Hdec.
      * intros [= <-]. cbn [Authorize].
        apply elem_of_app in Hw as [Hw|Hw];
          [|apply list_elem_of_singleton in Hw; by subst w].
        exfalso. symmetry in Hdec. by apply (countFor_zero _ _ _ Hcb Hw).
      * apply elem_of_app in Hw as [Hw|Hw];
          [|apply list_elem_of_singleton in Hw; by subst w].
        by apply Hf.
    + intros c t. rewrite lookup_insert. case_decide as Hdec.
      * intros [= <-]. subst c. cbn [Authorize].
        rewrite <- Hvalid. by apply validVote_Signers.
      * intros Hct. rewrite <- (Hv c t Hct). by apply validVote_Signers.
Qed.

Lemma cast_votes_length s signer number coinbase authorize :
  let c := cast s coinbase authorize in
  (length (SVotes (if snd c
     then set_Votes (fst c)
            (SVotes (fst c) ++ [mkVote signer number coinbase authorize])
     else fst c)) ≤ S (length (SVotes s)))%nat.
Proof.
  cbv zeta. pose proof (cast_Votes s coinbase authorize) as H.
  destruct (cast s coinbase authorize) as [s' []]; cbn [fst snd SVotes set_Votes] in *;
    rewrite H; [|lia]. rewrite length_app. cbn. lia.
Qed.

Lemma resolve_votes_length s coinbase n :
  (length (SVotes (resolve s coinbase n)) ≤ length (SVotes s))%nat.
Proof.
  unfold resolve. destruct (_ <? _); [|done].
  cbn [SVotes set_Tally set_Votes].
  etransitivity; [apply sublist_length, discardVotesFor_sublist|].
  destruct (Authorize _); [done|].
  pose proof (discardVotesBy_sublist
    (evictRecent (set_Signers s (Signers s ∖ {[coinbase]})) n)
    (SVotes (evictRecent (set_Signers s (Signers s ∖ {[coinbase]})) n))
    coinbase) as Hsub.
  destruct (discardVotesBy _ _ _) as [s'' votes]. cbn [snd SVotes set_Votes] in *.
  apply sublist_length in Hsub. by rewrite evictRecent_Votes in Hsub.
Qed.

Section VotesTallied.
Variable ecrecover : Header → error + Address.
Variables nonceAuthVote nonceDropVote : Nonce.

Lemma tallyHeader_tallied s header :
  votesTallied s → Z.of_nat (length (SVotes s)) < maxInt →
  votesTallied (fst (tallyHeader ecrecover nonceAuthVote nonceDropVote s header)) ∧
  (length (SVotes (fst (tallyHeader ecrecover nonceAuthVote nonceDropVote s header)))
     ≤ S (length (SVotes s)))%nat.
Proof.
  intros Ht Hlen. unfold tallyHeader. fold (checkpointReset s (Number header)).
  destruct (Epoch (config s) =? 0); [cbn [fst]; split; [done|lia]|].
  set (s0 := evictRecent (checkpointReset s (Number header)) (Number header)).
  assert (votesTallied s0 ∧ (length (SVotes s0) ≤ length (SVotes s))%nat) as [H0 L0].
  { subst s0. unfold checkpointReset. case_match.
    - split; [|rewrite evictRecent_Votes; cbn; lia].
      eapply (votesTallied_same (set_Tally (set_Votes s []) ∅));
        [apply evictRecent_Tally | apply evictRecent_Votes
        | apply evictRecent_Signers |].
      unfold votesTallied, tallyValid. cbn [STally SVotes set_Tally set_Votes].
      split; [|split].
      + intros c. by rewrite lookup_empty.
      + intros v t Hv. by apply elem_of_nil in Hv.
      + intros c t. by rewrite lookup_empty.
    - split; [|by rewrite evictRecent_Votes].
      eapply votesTallied_same; [apply evictRecent_Tally | apply evictRecent_Votes
                                | apply evictRecent_Signers | done]. }
  destruct (ecrecover header) as [e|signer]; cbn [fst]; [split; [done|lia]|].
  destruct (negb _); cbn [fst]; [split; [done|lia]|].
  destruct (recentlySigned _ signer); cbn [fst]; [split; [done|lia]|].
  set (s2 := set_Recents s0 _).
  assert (votesTallied s2) as H2 by (by apply (votesTallied_same s0)).
  destruct (discardPrevious_tallied s2 signer (Coinbase header) H2) as [H3 L3].
  destruct (discardPrevious s2 (SVotes s2) signer (Coinbase header)) as [s3 votes].
  cbn [fst snd] in H3, L3.
  assert (length votes ≤ length (SVotes s))%nat as L3'
    by (subst s2; cbn [SVotes set_Recents] in L3; lia).
  destruct (decodeVote _ _ _) as [authorize|]; cbn [fst];
    [|split; [done | cbn [SVotes set_Votes]; lia]].
  pose proof (cast_tallied (set_Votes s3 votes) signer (Number header)
                (Coinbase header) authorize H3) as H4.
  pose proof (cast_votes_length (set_Votes s3 votes) signer (Number header)
                (Coinbase header) authorize) as L4.
  cbv zeta in H4, L4. cbn [SVotes set_Votes] in H4, L4.
  specialize (H4 ltac:(lia)).
  destruct (cast (set_Votes s3 votes) (Coinbase header) authorize) as [s4 []];
    cbn [fst snd] in *; (split; [done | lia]).
Qed.

Lemma applyHeader_tallied s header :
  votesTallied s → Z.of_nat (length (SVotes s)) < maxInt →
  votesTallied (fst (applyHeader ecrecover nonceAuthVote nonceDropVote s header)) ∧
  (length (SVotes (fst (applyHeader ecrecover nonceAuthVote nonceDropVote s header)))
     ≤ S (length (SVotes s)))%nat.
Proof.
  intros Ht Hlen. unfold applyHeader.
  destruct (tallyHeader_tallied s header Ht Hlen) as [H L].
  destruct (tallyHeader _ _ _ s header) as [sc []]; cbn [fst] in *; [|done..].
  split; [by apply resolve_tallied|].
  pose proof (resolve_votes_length sc (Coinbase header) (Number header)). lia.
Qed.

Lemma applyLoop_tallied headers s :
  votesTallied s →
  Z.of_nat (length (SVotes s)) + Z.of_nat (length headers) ≤ maxInt →
  votesTallied (fst (applyLoop ecrecover nonceAuthVote nonceDropVote s headers)).
Proof.
  revert s. induction headers as [|header headers IH]; intros s Ht Hlen; [done|].
  cbn [applyLoop]. cbn [length] in Hlen.
  destruct (applyHeader_tallied s header Ht ltac:(lia)) as [H L].
  destruct (applyHeader _ _ _ s header) as [s1 []]; cbn [fst] in *; [|done..].
  apply IH; [done | lia].
Qed.

(** Votes and tally stay in step through [apply]. Suppose that, before
    the call, the tally holds for every candidate exactly the number of
    pending votes on it (and no entry for a candidate without votes),
    every pending vote carries the flag of its candidate's tally, and
    every tally proposes a change of membership. Then the same holds
    after [apply], whether it succeeds or fails, as long as the number of
    pending votes plus the number of headers is within [int]. *)
Theorem apply_keeps_votes_tallied (s : Snapshot) (headers : list Header) :
  votesTallied s →
  Z.of_nat (length (SVotes s)) + Z.of_nat (length headers) ≤ maxInt →
  votesTallied (fst (apply ecrecover nonceAuthVote nonceDropVote s headers)).
Proof.
  intros Ht Hlen. unfold apply. destruct headers as [|first rest]; [done|].
  destruct (negb (contiguous _)); [done|].
  destruct (negb (_ =? _)); [done|].
  rewrite <- (length_rev (first :: rest)) in Hlen.
  pose proof (applyLoop_tallied (rev (first :: rest)) s Ht Hlen) as H.
  destruct (applyLoop _ _ _ s (rev (first :: rest))) as [s1 []]; cbn [fst] in *;
    [|done..].
  by eapply votesTallied_same; [| | |exact H].
Qed.
End VotesTallied.

(** ** Checkpoints *)

Section Checkpoint.
Variable ecrecover : Header → error + Address.
Variables nonceAuthVote nonceDropVote : Nonce.

(** A checkpoint header ([number mod Epoch = 0]) clears the pending votes
    and the tally before its own vote is tallied. With at least two
    signers the header therefore never changes the signer set, whatever
    was pending: after it, either nothing is pending, or the one vote of
    this header with a tally of one vote on its beneficiary. *)
Theorem checkpoint_starts_afresh (s s' : Snapshot) (header : Header) :
  Number header mod Epoch (config s) = 0 →
  2 ≤ lenSigners s →
  applyHeader ecrecover nonceAuthVote nonceDropVote s header = (s', ok) →
  Signers s' = Signers s ∧
  ((SVotes s' = [] ∧ STally s' = ∅) ∨
   ∃ signer authorize,
     ecrecover header = inr signer ∧
     SVotes s' = [mkVote signer (Number header) (Coinbase header) authorize] ∧
     STally s' = {[Coinbase header := mkTally authorize 1]}).
Proof.
  intros Hcp Hlen Happ. unfold applyHeader in Happ.
  destruct (tallyHeader _ _ _ s header) as [sc r] eqn:Ht.
  destruct r; [|done..]. injection Happ as <-.
  pose proof (tallyHeader_Signers ecrecover nonceAuthVote nonceDropVote s header) as Hsig.
  rewrite Ht in Hsig. cbn [fst] in Hsig.
  apply tallyHeader_ok_inv in Ht as (_ & signer & authorize & Hrec & _ & _ & H).
  cbv zeta in H. destruct H as [_ H].
  set (s0 := evictRecent (checkpointReset s (Number header)) (Number header)) in H.
  assert (SVotes s0 = [] ∧ STally s0 = ∅) as [Hv0 Ht0].
  { subst s0. rewrite evictRecent_Votes, evictRecent_Tally.
    unfold checkpointReset. by rewrite Hcp. }
  cbn [SVotes set_Recents] in H. rewrite Hv0 in H.
  cbn [discardPrevious fst snd] in H. unfold cast in H.
  cbn [STally set_Votes set_Recents] in H. rewrite Ht0, lookup_empty in H.
  assert (1 ≤ lenSigners sc / 2) as Hhalf.
  { unfold lenSigners in *. rewrite Hsig. apply Z.div_le_lower_bound; lia. }
  unfold resolve, tallyOf.
  destruct (negb (validVote _ (Coinbase header) authorize)); cbn [fst snd] in H;
    subst sc; cbn [STally SVotes Signers set_Tally set_Votes set_Recents] in *.
  - rewrite Ht0, lookup_empty. cbn [default from_option id Votes].
    match goal with |- context [?x / 2 <? 0] =>
      assert ((x / 2 <? 0) = false) as -> by (apply Z.ltb_ge; lia) end.
    split; [done|]. left. by cbn.
  - rewrite lookup_insert_eq. cbn [default from_option id Votes].
    match goal with |- context [?x / 2 <? 1] =>
      assert ((x / 2 <? 1) = false) as -> by (apply Z.ltb_ge; lia) end.
    split; [done|]. right. exists signer, authorize.
    split; [done|]. by cbn.
Qed.
End Checkpoint.

(** ** Runs of the writer *)

Lemma snapLe_numLe a b : snapLe a b → numLe a b.
Proof. unfold snapLe, numLe. lia. Qed.

Lemma Sorted_snapLe_numLe l : Sorted snapLe l → Sorted numLe l.
Proof.
  induction 1 as [|a l Hs IH Hhd]; constructor; [done|].
  destruct Hhd; constructor. by apply snapLe_numLe.
Qed.

Lemma sortStable_length l : length (sortStable l) = length l.
Proof.
  assert (∀ x k, length (insertStable x k) = S (length k)) as Hins.
  { intros x k. induction k as [|y k IH]; cbn [insertStable]; [done|].
    case_match; cbn [length]; by rewrite ?IH. }
  unfold sortStable. induction l as [|x l IH]; cbn [foldr length]; [done|].
  by rewrite Hins, IH.
Qed.

Lemma batchOrder_length sn srt : length (batchOrder sn srt) = length sn.
Proof. unfold batchOrder. case_match; [apply sortStable_length | done]. Qed.

Lemma batchOrder_ascend sn srt :
  (srt = true → Sorted numLe sn) → Sorted numLe (batchOrder sn srt).
Proof.
  intros Hs. destruct srt.
  - unfold batchOrder. cbn [negb andb]. by apply Hs.
  - apply Sorted_snapLe_numLe, batchOrder_sorted.
Qed.

Lemma saveSnaps_frame st sn srt :
  let st' := fst (saveSnaps st sn srt) in
  ch st' = ch st ∧ chCap st' = chCap st ∧ chClosed st' = chClosed st ∧
  chStatus st' = chStatus st ∧ exitClosed st' = exitClosed st ∧
  batchSize st' = batchSize st.
Proof. cbv zeta. unfold saveSnaps. by case_match. Qed.

Lemma saveSnaps_appended st sn srt :
  sn ≠ [] → snd (saveSnaps st sn srt) = batchOrder sn srt.
Proof.
  intros Hne. unfold saveSnaps.
  destruct (Z.eqb_spec (Z.of_nat (length sn)) 0) as [Hz|]; [|done].
  destruct sn; [done | cbn [length] in Hz; lia].
Qed.

Lemma appended_snoc_ascend (l : list snapObj) (x : snapObj) (srt : bool) :
  (srt = true → Sorted numLe l) →
  (if srt && (1 <? lenZ (l ++ [x])) &&
      (number x <? number (nth (length (l ++ [x]) - 2) (l ++ [x]) x))
   then false else srt) = true →
  Sorted numLe (l ++ [x]).
Proof.
  intros Hs Hflag. destruct srt; [|by case_match].
  specialize (Hs eq_refl). cbn [andb] in Hflag.
  apply Sorted_snoc; [done|].
  destruct (last l) as [y|] eqn:Hlast.
  - apply last_Some in Hlast as [l' ->]. constructor.
    unfold lenZ in Hflag. rewrite !length_app in Hflag. cbn [length] in Hflag.
    assert ((1 <? Z.of_nat (length l' + 1 + 1)) = true) as Hone
      by (apply Z.ltb_lt; lia).
    rewrite Hone in Hflag. cbn [andb] in Hflag.
    replace (length l' + 1 + 1 - 2)%nat with (length l') in Hflag by lia.
    rewrite <- app_assoc in Hflag. rewrite (nth_lookup_Some _ _ _ y) in Hflag
      by (by rewrite lookup_app_r, Nat.sub_diag by lia).
    destruct (number x <? number y) eqn:Hlt; [done|].
    apply Z.ltb_ge in Hlt. by unfold numLe.
  - assert (l = []) as -> by (by destruct l using rev_ind; [|rewrite last_snoc in Hlast]).
    constructor.
Qed.

Lemma onReceive_inv w w' : onReceive w = Some w' → writerInv w → writerInv w'.
Proof.
  unfold onReceive, receive.
  intros H (Hcap & Hbs & Hch & Hsn & Hsorted & Hbatches).
  destruct (consumer w); [|done..].
  destruct (ch (stor w)) as [|x rest] eqn:Hq.
  { destruct (chClosed (stor w)); [|done]. injection H as <-.
    unfold writerInv. cbn. by rewrite Hq. }
  cbn [chStatus set_ch] in H.
  set (st := set_ch (stor w) rest) in *.
  assert (lenZ rest ≤ 50000) as Hrest
    by (unfold lenZ in *; cbn [length] in Hch; lia).
  set (flag := if isSorted w && (1 <? lenZ (snaps w ++ [x])) &&
                  (number x <? number (nth (length (snaps w ++ [x]) - 2)
                                         (snaps w ++ [x]) x))
               then false else isSorted w) in *.
  pose proof (appended_snoc_ascend (snaps w) x (isSorted w) Hsorted) as Hsnoc.
  fold flag in Hsnoc.
  assert (∃ sn srt, (if shallAppend st x then (snaps w ++ [x], flag)
                     else (snaps w, isSorted w)) = (sn, srt) ∧
                    lenZ sn ≤ 100000 ∧ (srt = true → Sorted numLe sn))
    as (sn & srt & Heq & Hlen & Hsrt).
  { destruct (shallAppend st x); eexists _, _; (split; [done|]).
    - split; [|done]. unfold lenZ in *. rewrite length_app. cbn [length]. lia.
    - split; [lia | done]. }
  assert (batchSize st = 100000) as Hbs' by (subst st; exact Hbs).
  rewrite Heq, Hbs' in H.
  cbn [negb andb orb] in H. rewrite orb_false_r in H.
  destruct (Z.leb_spec 100000 (lenZ sn)) as [Hfull|Hroom].
  - assert (sn ≠ []) as Hne by (intros ->; unfold lenZ in Hfull; cbn in Hfull; lia).
    pose proof (saveSnaps_frame st sn srt) as Hframe. cbv zeta in Hframe.
    pose proof (saveSnaps_appended st sn srt Hne) as Happ.
    destruct (saveSnaps st sn srt) as [st' appended]. cbn [fst snd] in *.
    destruct Hframe as (Hf1 & Hf2 & _ & _ & _ & Hf6).
    injection H as <-. unfold writerInv. cbn [stor snaps isSorted batches].
    rewrite Hf1, Hf2, Hf6. subst st. cbn [ch chCap batchSize set_ch].
    split; [done|]. split; [done|]. split; [done|].
    split; [unfold lenZ; cbn; lia|]. split; [intros _; constructor|].
    + apply Forall_app. split; [done|]. constructor; [|done]. split.
      * rewrite Happ. intros Hnil. apply Hne.
        apply length_zero_iff_nil. rewrite <- (batchOrder_length sn srt).
        by rewrite Hnil.
      * rewrite Happ. by apply batchOrder_ascend.
  - injection H as <-. unfold writerInv. cbn [stor snaps isSorted batches].
    subst st. cbn [ch chCap batchSize set_ch]. repeat split; done.
Qed.

Lemma onTick_inv w w' : onTick w = Some w' → writerInv w → writerInv w'.
Proof.
  unfold onTick. intros H (Hcap & Hbs & Hch & Hsn & Hsorted & Hbatches).
  destruct (consumer w); [|done..].
  destruct (_ || _) eqn:Hflush.
  - assert (snaps w ≠ []) as Hne.
    { intros Hnil. rewrite Hnil in Hflush. by rewrite !andb_false_r in Hflush. }
    pose proof (saveSnaps_frame (stor w) (snaps w) (isSorted w)) as Hframe.
    cbv zeta in Hframe.
    pose proof (saveSnaps_appended (stor w) (snaps w) (isSorted w) Hne) as Happ.
    destruct (saveSnaps (stor w) (snaps w) (isSorted w)) as [st' appended].
    cbn [fst snd] in *. destruct Hframe as (Hf1 & Hf2 & _ & _ & _ & Hf6).
    injection H as <-. unfold writerInv. cbn [stor snaps isSorted batches].
    rewrite Hf1, Hf2, Hf6.
    split; [done|]. split; [done|]. split; [done|].
    split; [unfold lenZ; cbn; lia|]. split; [intros _; constructor|].
    + apply Forall_app. split; [done|]. constructor; [|done]. split.
      * rewrite Happ. intros Hnil. apply Hne.
        apply length_zero_iff_nil. rewrite <- (batchOrder_length (snaps w) (isSorted w)).
        by rewrite Hnil.
      * rewrite Happ. by apply batchOrder_ascend.
  - injection H as <-. unfold writerInv. cbn [stor snaps isSorted batches].
    repeat split; done.
Qed.

Lemma step_inv w e w' : step w e = Some w' → writerInv w → writerInv w'.
Proof.
  destruct e as [num h b| | |]; cbn [step].
  - intros H (Hcap & Hbs & Hch & Hsn & Hsorted & Hbatches).
    unfold save in H. cbn [negb] in H.
    destruct (exitClosed (stor w)).
    + destruct (chStatus (stor w) =? 0); injection H as <-;
        unfold writerInv; by cbn.
    + destruct (chClosed (stor w)); [injection H as <-; unfold writerInv; by cbn|].
      destruct (Z.leb_spec (chCap (stor w)) (Z.of_nat (length (ch (stor w)))))
        as [|Hroom]; [done|].
      injection H as <-. unfold writerInv. cbn [stor snaps isSorted batches].
      cbn [ch chCap batchSize set_ch]. repeat split; try done.
      unfold lenZ. rewrite length_app. cbn [length]. lia.
  - intros [= <-] (Hcap & Hbs & Hch & Hsn & Hsorted & Hbatches).
    unfold writerInv. by cbn.
  - apply onReceive_inv.
  - apply onTick_inv.
Qed.

Lemma run_inv es w w' : run w es = Some w' → writerInv w → writerInv w'.
Proof.
  revert w. induction es as [|e es IH]; intros w; cbn [run].
  - by intros [= <-].
  - destruct (step w e) as [w1|] eqn:Hstep; [|done].
    intros Hrun Hinv. apply (IH w1 Hrun). by apply (step_inv w e).
Qed.

Lemma startWriter_inv d : writerInv (startWriter d).
Proof.
  unfold writerInv, startWriter, newStorage, lenZ. cbn.
  repeat split; try done; try lia; try (intros _; constructor).
Qed.

(** The queue and the buffer are bounded. Whatever the producers, [Close]
    and the consumer do, in whatever order, the queue never holds more
    than 50000 items and, between two turns of the consumer, its buffer
    holds fewer than 100000. *)
Theorem writer_stays_bounded (d : Database) (es : list event) (w : writer) :
  run (startWriter d) es = Some w →
  lenZ (ch (stor w)) ≤ 50000 ∧ lenZ (snaps w) < 100000.
Proof.
  intros Hrun.
  destruct (run_inv es _ w Hrun (startWriter_inv d)) as (_ & _ & H1 & H2 & _).
  by split.
Qed.

(** Every physical batch that the consumer writes, in any run, is
    non-empty and in non-decreasing order of block number (the order of
    the hashes among equal numbers is not kept this way). *)
Theorem batches_ascend_by_number (d : Database) (es : list event) (w : writer) :
  run (startWriter d) es = Some w →
  ∀ b, b ∈ batches w → b ≠ [] ∧ Sorted numLe b.
Proof.
  intros Hrun b Hb.
  destruct (run_inv es _ w Hrun (startWriter_inv d)) as (_ & _ & _ & _ & _ & H).
  by apply (proj1 (Forall_forall _ _) H b).
Qed.

(** ** Flushing a batch *)

Lemma insertStable_elem x l y : y ∈ insertStable x l ↔ y = x ∨ y ∈ l.
Proof.
  induction l as [|z l IH]; cbn [insertStable].
  - rewrite list_elem_of_singleton, elem_of_nil. tauto.
  - case_match; rewrite !elem_of_cons, ?IH; tauto.
Qed.

Lemma sortStable_elem l y : y ∈ sortStable l ↔ y ∈ l.
Proof.
  unfold sortStable. induction l as [|x l IH]; cbn [foldr]; [done|].
  rewrite insertStable_elem, elem_of_cons, IH. tauto.
Qed.

Lemma batchOrder_elem sn srt y : y ∈ batchOrder sn srt ↔ y ∈ sn.
Proof. unfold batchOrder. case_match; [apply sortStable_elem | done]. Qed.

Lemma appendAll_writable d b sn :
  appendError d = None →
  appendAll d b sn
    = b ++ map (λ x, (BlockBodyKey (number x) (hash x), blob x)) sn.
Proof.
  intros Hok. revert b. induction sn as [|x sn IH]; intros b; cbn [appendAll map].
  - by rewrite app_nil_r.
  - unfold batchAppend. rewrite Hok. cbn [fst]. rewrite IH, <- app_assoc. done.
Qed.


Lemma foldl_insert_wins (l : list (Key * Blob)) (m : gmap Key Blob) (k : Key) :
  k ∈ map fst l →
  ∃ v, (k, v) ∈ l ∧ foldl (λ m kv, <[fst kv := snd kv]> m) m l !! k = Some v.
Proof.
  induction l as [|[k' v'] l IH] using rev_ind; [by intros ?%elem_of_nil|].
  rewrite map_app, foldl_app. cbn [map foldl fst snd]. intros Hin.
  destruct (decide (k' = k)) as [->|Hne].
  - exists v'. split; [apply elem_of_app; right; apply list_elem_of_here|].
    apply lookup_insert_eq.
  - apply elem_of_app in Hin as [Hin|Hin].
    + destruct (IH Hin) as (v & Hv & Hlook). exists v. split.
      * apply elem_of_app. by left.
      * by rewrite lookup_insert_ne.
    + apply list_elem_of_singleton in Hin. by subst.
Qed.

(** When appends and commit succeed, a flush makes every buffered item
    durable: after [saveSnaps] the bucket holds, under the key of each
    item, the blob of an item of the buffer with that number and hash
    (of the one appended last, should there be several). *)
Theorem flush_commits (st : storage) (sn : list snapObj) (srt : bool) (x : snapObj) :
  writable (db st) → x ∈ sn →
  ∃ y, y ∈ sn ∧ number y = number x ∧ hash y = hash x ∧
       committed (db (fst (saveSnaps st sn srt))) y.
Proof.
  intros [Happ Hcom] Hx. unfold saveSnaps.
  destruct (Z.eqb_spec (Z.of_nat (length sn)) 0) as [Hz|_].
  { destruct sn; [by apply elem_of_nil in Hx | cbn [length] in Hz; lia]. }
  cbn [fst db set_db]. unfold batchCommit. rewrite Hcom. cbn [fst cells].
  rewrite (appendAll_writable _ _ _ Happ). cbn [app].
  set (kv := λ z : snapObj, (BlockBodyKey (number z) (hash z), blob z)).
  assert (BlockBodyKey (number x) (hash x) ∈ map fst (map kv (batchOrder sn srt)))
    as Hkey.
  { rewrite map_map. apply list_elem_of_In, in_map_iff. exists x.
    split; [done|]. apply list_elem_of_In. by apply batchOrder_elem. }
  destruct (foldl_insert_wins _ (cells (db st)) _ Hkey) as (v & Hv & Hlook).
  apply list_elem_of_In, in_map_iff in Hv as (y & Hy & Hin).
  apply list_elem_of_In, batchOrder_elem in Hin.
  unfold kv, BlockBodyKey in Hy. injection Hy as Hn Hh Hb.
  exists y. repeat split; try done.
  unfold committed, BlockBodyKey. by rewrite Hn, Hh, Hb.
Qed.


(** ** save, store and load *)

(** Once the close signal is up, [save] on the asynchronous path never
    puts an item on the queue, never waits and never touches the
    database; the first such call marks the writer as closing, and every
    later call changes nothing at all. *)
Theorem save_after_close (st : storage) (num : Z) (h : Hash) (b : Blob) :
  exitClosed st = true →
  let st' := fst (save st num h b false) in
  snd (save st num h b false) = finished ∧
  ch st' = ch st ∧ db st' = db st ∧ chStatus st' ≠ 0 ∧
  ∀ num' h' b', save st' num' h' b' false = (st', finished).
Proof.
  intros Hexit. cbv zeta. unfold save. cbn [negb]. rewrite Hexit.
  destruct (Z.eqb_spec (chStatus st) 0) as [Hz|Hnz]; cbn [fst snd].
  - repeat split; try done.
  - repeat split; try done. intros num' h' b'. rewrite Hexit.
    by apply Z.eqb_neq in Hnz as ->.
Qed.

Section StoreLoad.
Variable marshal : Snapshot → error + Blob.
Variable unmarshal : Blob → error + Snapshot.

(** Forced store, then load. On a database whose [Has] and [Append]
    succeed, a forced [store] of a snapshot that is not stored yet puts
    the serialized snapshot under (number, hash);
    [loadAndFillSnapshot] for that number and hash then returns what
    [json.Unmarshal] makes of this blob, with the configuration filled
    in. *)
Theorem store_then_load (s s0 : Snapshot) (st : storage) (b : Blob)
    (cfg : CliqueConfig) :
  hasError (db st) = None → appendError (db st) = None →
  cells (db st) !! BlockBodyKey (SNumber s) (SHash s) = None →
  marshal s = inr b → unmarshal b = inr s0 →
  let st1 := fst (fst (store marshal s st (db st) true)) in
  getSnapshotData (db st1) (SNumber s) (SHash s) = inr b ∧
  loadAndFillSnapshot unmarshal (db st1) (SNumber s) (SHash s) cfg
    = inr (set_config s0 cfg).
Proof.
  intros Hhas Happ Hnew Hm Hu. cbv zeta.
  assert (bool_decide (is_Some (@None Blob)) = false) as Hnb
    by (apply bool_decide_eq_false; by intros [? ?]).
  assert (getSnapshotData (db (fst (fst (store marshal s st (db st) true))))
            (SNumber s) (SHash s) = inr b) as Hget.
  { unfold store, save, hasSnapshotData, dbHas. rewrite Hhas, Hnew, Hnb, Hm.
    cbn [andb negb orb fst snd number hash blob db set_db].
    unfold dbAppend. rewrite Happ. cbn [fst].
    unfold getSnapshotData, dbGet. cbn [cells]. by rewrite lookup_insert_eq. }
  split; [exact Hget|].
  unfold loadAndFillSnapshot, loadSnapshot. by rewrite Hget, Hu.
Qed.

(** Storing twice. After that forced [store], a second [store] of the
    same snapshot, forced or not, returns [nil] and leaves the writer as
    it is (nothing is queued), and the consumer would drop an item with
    this number and hash ([shallAppend] is false). *)
Theorem store_twice (s : Snapshot) (st : storage) (b : Blob) :
  hasError (db st) = None → appendError (db st) = None →
  marshal s = inr b →
  let st1 := fst (fst (store marshal s st (db st) true)) in
  (∀ force, store marshal s st1 (db st1) force = (st1, finished, None)) ∧
  ∀ b', shallAppend st1 (mkSnapObj (SNumber s) (SHash s) b') = false.
Proof.
  intros Hhas Happ Hm. cbv zeta.
  assert (bool_decide (is_Some (@None error)) = false) as Hne
    by (apply bool_decide_eq_false; by intros [? ?]).
  assert (hasSnapshotData (db (fst (fst (store marshal s st (db st) true))))
            (SNumber s) (SHash s) = (true, None)) as Hstored.
  { unfold store, save, hasSnapshotData, dbHas. rewrite Hhas.
    destruct (cells (db st) !! BlockBodyKey (SNumber s) (SHash s)) as [old|] eqn:Hold.
    - rewrite bool_decide_eq_true_2 by eauto. rewrite Hne.
      cbn [andb negb fst]. rewrite Hhas, Hold.
      by rewrite bool_decide_eq_true_2 by eauto.
    - assert (bool_decide (is_Some (@None Blob)) = false) as Hnb
        by (apply bool_decide_eq_false; by intros [? ?]).
      rewrite Hnb, Hm.
      cbn [andb negb orb fst snd number hash blob db set_db].
      unfold dbAppend. rewrite Happ. cbn [fst hasError cells].
      rewrite Hhas, lookup_insert_eq.
      by rewrite bool_decide_eq_true_2 by eauto. }
  set (st1 := fst (fst (store marshal s st (db st) true))) in *.
  clearbody st1. split.
  - intros force. unfold store. rewrite Hstored, Hne. done.
  - intros b'. unfold shallAppend. cbn [number hash]. rewrite Hstored, Hne. done.
Qed.
End StoreLoad.

(** ** The ticker *)

(** The ticker leaves a buffer of sixty or more items alone while the
    close signal has not been observed: such a buffer is not written by
    any number of ticks. *)
Theorem ticker_skips_large_buffer (w : writer) (n : nat) :
  consumer w = Running → chStatus (stor w) = 0 →
  syncSmallSeconds ≤ lenZ (snaps w) →
  run w (repeat Tick n) = Some w.
Proof.
  intros Hrun Hstatus Hlen.
  assert (onTick w = Some w) as Htick.
  { destruct w as [st sn srt c bs]. cbn [consumer stor snaps] in *. subst c.
    unfold onTick. cbn [consumer stor snaps isSorted batches].
    rewrite Hstatus. cbn [Z.eqb andb orb].
    assert ((lenZ sn <? syncSmallSeconds) = false) as ->
      by (apply Z.ltb_ge; lia).
    by rewrite andb_false_r. }
  induction n as [|n IH]; cbn [repeat run step]; [done|].
  by rewrite Htick.
Qed.

(** ** Typed cursors *)

Lemma wrapOf_inRange el z : inRangeOf el (wrapOf el z).
Proof.
  unfold inRangeOf, wrapOf. destruct (String.eqb _ _).
  - unfold wrap64, maxUint64, two64.
    pose proof (Z.mod_pos_bound z (2 ^ 64) ltac:(lia)). lia.
  - unfold wrapInt, minInt, maxInt, two64.
    pose proof (Z.mod_pos_bound (z + 2 ^ 63) (2 ^ 64) ltac:(lia)). lia.
Qed.

Lemma wrapOf_id el z : inRangeOf el z → wrapOf el z = z.
Proof.
  unfold inRangeOf, wrapOf. destruct (String.eqb _ _).
  - apply wrap64_id.
  - apply wrapInt_id.
Qed.

Lemma tallyCodec_roundtrip z : tallyDecode (tallyEncode z) = Some z.
Proof.
  unfold tallyEncode, tallyDecode. rewrite repeat_length. f_equal.
  destruct (Z.ltb_spec z 0).
  - change (Byte.eqb x01 x01) with true. cbv iota. lia.
  - change (Byte.eqb x00 x01) with false. cbv iota. lia.
Qed.

Section TypedCursorProperties.
Variable Cursor : Type.
Variable SeekExact : Cursor → list byte → option Blob.
Variable CursorPut : Cursor → list byte → Blob → Cursor * option error.
Variable MustEncode : Z → Blob.
Variable MustDecode : Blob → option Z.
Variable el : TemplateVariables.

(** What the methods rely on: a successful [Put] of the cursor is seen
    by [SeekExact] under that key and under no other, and the decoder
    reads back what the encoder wrote for a value of the type. *)
Hypothesis seek_put : ∀ b k value b',
  CursorPut b k value = (b', None) → SeekExact b' k = Some value.
Hypothesis seek_put_other : ∀ b k value b' k',
  CursorPut b k value = (b', None) → k' ≠ k → SeekExact b' k' = SeekExact b k'.
Hypothesis codec : ∀ v, inRangeOf el v → MustDecode (MustEncode v) = Some v.

Let get := Get Cursor SeekExact MustDecode.
Let put := Put Cursor CursorPut MustEncode.
Let increment := Increment Cursor SeekExact CursorPut MustEncode MustDecode el.
Let decrement := Decrement Cursor SeekExact CursorPut MustEncode MustDecode el.

Lemma put_ok_inv b k v b' :
  put b k v = (b', cursorOk) → CursorPut b k (MustEncode v) = (b', None).
Proof.
  unfold put, Put. destruct (CursorPut b k (MustEncode v)) as [b1 [e|]]; [done|].
  by intros [= <-].
Qed.

Lemma put_then_get_aux (b b' : Cursor) (k : list byte) (v : Z) :
  inRangeOf el v → put b k v = (b', cursorOk) → get b' k = Some (v, true).
Proof.
  intros Hv Hput. apply put_ok_inv in Hput.
  unfold get, Get. by rewrite (seek_put _ _ _ _ Hput), codec.
Qed.

(** [Put] then [Get]: a value of the bucket's type that was put without
    error is what [Get] returns, with the key present. *)
Theorem put_then_get (b b' : Cursor) (k : list byte) (v : Z) :
  inRangeOf el v → put b k v = (b', cursorOk) → get b' k = Some (v, true).
Proof. exact (put_then_get_aux b b' k v). Qed.

Lemma increment_then_get_aux (b b' : Cursor) (k : list byte) (v : Z) (present : bool) :
  get b k = Some (v, present) → increment b k = (b', cursorOk) →
  get b' k = Some (wrapOf el (v + 1), true) ∧
  (present = false → get b' k = Some (1, true)).
Proof.
  intros Hget Hinc. unfold increment, Increment in Hinc. fold get in Hinc.
  rewrite Hget in Hinc. fold put in Hinc.
  pose proof (put_then_get_aux _ _ _ _ (wrapOf_inRange el (v + 1)) Hinc) as Hnew.
  split; [done|]. intros ->. rewrite Hnew.
  unfold get, Get in Hget. destruct (SeekExact b k) as [value|].
  - by destruct (MustDecode value).
  - injection Hget as <-. do 2 f_equal.
    unfold wrapOf. destruct (String.eqb _ _); reflexivity.
Qed.

(** [Increment] stores the successor in the bucket's type: a key that
    was missing is created with 1, and the largest value of the type
    wraps around. *)
Theorem increment_then_get (b b' : Cursor) (k : list byte) (v : Z) (present : bool) :
  get b k = Some (v, present) → increment b k = (b', cursorOk) →
  get b' k = Some (wrapOf el (v + 1), true) ∧
  (present = false → get b' k = Some (1, true)).
Proof. exact (increment_then_get_aux b b' k v present). Qed.


Lemma decrement_then_get_aux (b b' : Cursor) (k : list byte) (v : Z) :
  get b k = Some (v, true) → decrement b k = (b', cursorOk) →
  get b' k = Some (wrapOf el (v - 1), true) ∧
  (el ∈ Types → inRangeOf el v → v ≠ minInt → wrapOf el (v - 1) = v - 1).
Proof.
  intros Hget Hdec. unfold decrement, Decrement in Hdec. fold get in Hdec.
  rewrite Hget in Hdec. cbn [negb] in Hdec.
  destruct (OnlyPositive el && (v =? 0)) eqn:Hguard; [done|]. fold put in Hdec.
  split; [by apply (put_then_get_aux _ _ _ _ (wrapOf_inRange el (v - 1)) Hdec)|].
  intros Hel Hv Hmin. apply wrapOf_id.
  unfold Types in Hel.
  apply elem_of_cons in Hel as [->|Hel].
  - cbn in *. apply Z.eqb_neq in Hguard. unfold maxUint64 in *. lia.
  - apply list_elem_of_singleton in Hel as ->. cbn in *.
    unfold minInt, maxInt in *. lia.
Qed.

(** A [Decrement] that returns [nil] stores the predecessor in the
    bucket's type. For the two buckets that are generated this is exactly
    [v - 1]: the unsigned bucket refuses zero instead of wrapping, and
    the signed one wraps only at the smallest [int]. *)
Theorem decrement_then_get (b b' : Cursor) (k : list byte) (v : Z) :
  get b k = Some (v, true) → decrement b k = (b', cursorOk) →
  get b' k = Some (wrapOf el (v - 1), true) ∧
  (el ∈ Types → inRangeOf el v → v ≠ minInt → wrapOf el (v - 1) = v - 1).
Proof. exact (decrement_then_get_aux b b' k v). Qed.

(** [Increment] then [Decrement] gives the value back, as long as the
    increment did not wrap; a key that was missing is then present with
    zero, not removed. *)
Theorem increment_then_decrement (b b1 b2 : Cursor) (k : list byte) (v : Z)
    (present : bool) :
  get b k = Some (v, present) → inRangeOf el v → inRangeOf el (v + 1) →
  increment b k = (b1, cursorOk) → decrement b1 k = (b2, cursorOk) →
  get b2 k = Some (v, true).
Proof.
  intros Hget Hv Hv1 Hinc Hdec.
  destruct (increment_then_get_aux _ _ _ _ _ Hget Hinc) as [H1 _].
  rewrite (wrapOf_id _ _ Hv1) in H1.
  destruct (decrement_then_get_aux _ _ _ _ H1 Hdec) as [H2 _].
  replace (v + 1 - 1) with v in H2 by lia.
  by rewrite (wrapOf_id _ _ Hv) in H2.
Qed.

(** [Increment] and [Decrement] of one key leave every other key as
    [Get] saw it. *)
Theorem counters_are_independent (b b' : Cursor) (k k' : list byte) :
  k' ≠ k →
  increment b k = (b', cursorOk) ∨ decrement b k = (b', cursorOk) →
  get b' k' = get b k'.
Proof.
  intros Hne Hop.
  assert (∃ v, put b k v = (b', cursorOk)) as [v Hput].
  { destruct Hop as [H|H].
    - unfold increment, Increment in H. fold get put in H.
      destruct (get b k) as [[v p]|]; [by eauto | done].
    - unfold decrement, Decrement in H. fold get put in H.
      destruct (get b k) as [[v p]|]; [|done].
      destruct (negb p); [done|]. destruct (_ && _); [done | by eauto]. }
  apply put_ok_inv in Hput. unfold get, Get.
  by rewrite (seek_put_other _ _ _ _ _ Hput Hne).
Qed.
End TypedCursorProperties.

(** ** Refused headers *)

Section Refusal.
Variable ecrecover : Header → error + Address.
Variables nonceAuthVote nonceDropVote : Nonce.

(** A header that is refused, for whatever reason, has not changed the
    signer set, the number or the hash of the snapshot, and has added no
    vote: what it may have changed is the recents, and the pending votes
    and tally by the checkpoint reset and the discarded earlier vote. *)
Theorem refused_header_keeps_signers (s : Snapshot) (header : Header) :
  let r := applyHeader ecrecover nonceAuthVote nonceDropVote s header in
  snd r ≠ ok →
  Signers (fst r) = Signers s ∧ headOf (fst r) = headOf s ∧
  (length (SVotes (fst r)) ≤ length (SVotes s))%nat.
Proof.
  cbv zeta. unfold applyHeader.
  pose proof (tallyHeader_Signers ecrecover nonceAuthVote nonceDropVote s header) as Hs.
  pose proof (tallyHeader_headOf ecrecover nonceAuthVote nonceDropVote s header) as Hh.
  destruct (tallyHeader ecrecover nonceAuthVote nonceDropVote s header)
    as [sc r] eqn:Ht.
  destruct r; [done| |]; intros _; cbn [fst] in *;
    (split; [done|]; split; [done|]).
  - unfold tallyHeader in Ht. fold (checkpointReset s (Number header)) in Ht.
    destruct (Epoch (config s) =? 0); [done|].
    assert (length (SVotes (evictRecent (checkpointReset s (Number header))
                              (Number header))) ≤ length (SVotes s))%nat as L0.
    { rewrite evictRecent_Votes. unfold checkpointReset.
      destruct (_ mod _ =? 0); cbn [SVotes set_Tally set_Votes length]; lia. }
    destruct (ecrecover header) as [e0|signer]; [by injection Ht as <- _|].
    destruct (negb _); [by injection Ht as <- _|].
    destruct (recentlySigned _ signer); [by injection Ht as <- _|].
    set (s2 := set_Recents _ _) in Ht.
    pose proof (discardPrevious_sublist s2 (SVotes s2) signer (Coinbase header)) as Hsub.
    destruct (discardPrevious s2 (SVotes s2) signer (Coinbase header)) as [s3 votes].
    apply sublist_length in Hsub. cbn [snd] in Hsub.
    destruct (decodeVote _ _ _) as [authorize|].
    + by destruct (cast (set_Votes s3 votes) (Coinbase header) authorize) as [s4 []].
    + injection Ht as <- _. cbn [SVotes set_Votes].
      subst s2. cbn [SVotes set_Recents] in Hsub. lia.
  - unfold tallyHeader in Ht. fold (checkpointReset s (Number header)) in Ht.
    destruct (Epoch (config s) =? 0); [by injection Ht as <-|].
    destruct (ecrecover header) as [e0|signer]; [done|].
    destruct (negb _); [done|].
    destruct (recentlySigned _ signer); [done|].
    destruct (discardPrevious _ _ signer (Coinbase header)) as [s3 votes].
    destruct (decodeVote _ _ _) as [authorize|]; [|done].
    by destruct (cast (set_Votes s3 votes) (Coinbase header) authorize) as [s4 []].
Qed.
End Refusal.

Lemma refused_header_keeps_signers_witness :
  let r := Scenario.applyHeaderT Scenario.trio Scenario.badNonce in
  Signers (fst r) = Signers Scenario.trio ∧ headOf (fst r) = headOf Scenario.trio ∧
  (length (SVotes (fst r)) ≤ length (SVotes Scenario.trio))%nat.
Proof.
  apply (refused_header_keeps_signers sealSigner authNonce dropNonce Scenario.trio
           Scenario.badNonce).
  vm_compute. discriminate.
Defined.

(** ** The further properties at worked inputs *)

Lemma apply_keeps_recents_distinct_witness :
  recentsDistinct
    (fst (Scenario.applyT Scenario.trio [Scenario.propose 1 Scenario.B Scenario.X true])).
Proof.
  apply (apply_keeps_recents_distinct sealSigner authNonce dropNonce Scenario.trio).
  intros k1 k2 a H. cbn in H. by rewrite lookup_empty in H.
Defined.

Lemma next_block_same_signer_witness :
  snd (Scenario.applyT (fst (Scenario.applyT Scenario.trio [Scenario.plain 1 Scenario.A]))
         [Scenario.plain 2 Scenario.A]) = fail errRecentlySigned.
Proof.
  apply (next_block_same_signer sealSigner authNonce dropNonce Scenario.trio _
           (Scenario.plain 1 Scenario.A) (Scenario.plain 2 Scenario.A) Scenario.A).
  - vm_compute. reflexivity.
  - reflexivity.
  - reflexivity.
  - apply (bool_decide_unpack _). vm_compute. exact I.
  - vm_compute. discriminate.
  - reflexivity.
  - vm_compute. reflexivity.
Defined.

Lemma invalid_vote_leaves_trace_witness :
  let r := Scenario.applyT Scenario.trio [Scenario.badNonce] in
  snd r = fail errInvalidVote ∧
  Recents (fst r) !! Number Scenario.badNonce = Some Scenario.A ∧
  fst r ≠ Scenario.trio.
Proof.
  apply (invalid_vote_leaves_trace sealSigner authNonce dropNonce Scenario.trio
           Scenario.badNonce Scenario.A).
  - vm_compute. reflexivity.
  - vm_compute. discriminate.
  - reflexivity.
  - apply (bool_decide_unpack _). vm_compute. exact I.
  - vm_compute. reflexivity.
  - vm_compute. reflexivity.
Defined.

Lemma apply_keeps_votes_tallied_witness :
  votesTallied
    (fst (Scenario.applyT Scenario.trio [Scenario.propose 1 Scenario.B Scenario.X true])).
Proof.
  apply (apply_keeps_votes_tallied sealSigner authNonce dropNonce Scenario.trio).
  - unfold votesTallied, tallyValid. cbn [Scenario.trio newSnapshot STally SVotes].
    split; [|split].
    + intros c. by rewrite lookup_empty.
    + intros v t Hv. by apply elem_of_nil in Hv.
    + intros c t. by rewrite lookup_empty.
  - vm_compute. discriminate.
Defined.

Lemma checkpoint_starts_afresh_witness :
  let s' := fst (Scenario.applyHeaderT Scenario.beforeCheckpoint
                   Scenario.checkpointHeader) in
  Signers s' = Signers Scenario.beforeCheckpoint ∧
  ((SVotes s' = [] ∧ STally s' = ∅) ∨
   ∃ signer authorize,
     sealSigner Scenario.checkpointHeader = inr signer ∧
     SVotes s' = [mkVote signer (Number Scenario.checkpointHeader)
                    (Coinbase Scenario.checkpointHeader) authorize] ∧
     STally s' = {[Coinbase Scenario.checkpointHeader := mkTally authorize 1]}).
Proof.
  apply (checkpoint_starts_afresh sealSigner authNonce dropNonce
           Scenario.beforeCheckpoint _ Scenario.checkpointHeader).
  - vm_compute. reflexivity.
  - vm_compute. discriminate.
  - vm_compute. reflexivity.
Defined.

Lemma writer_stays_bounded_witness :
  lenZ (ch (stor Scenario.forkWriter)) ≤ 50000 ∧
  lenZ (snaps Scenario.forkWriter) < 100000.
Proof.
  apply (writer_stays_bounded emptyDatabase Scenario.forkTrace Scenario.forkWriter).
  vm_compute. reflexivity.
Defined.

Lemma batches_ascend_by_number_witness :
  [Scenario.item 5 2%N; Scenario.item 5 1%N] ≠ [] ∧
  Sorted numLe [Scenario.item 5 2%N; Scenario.item 5 1%N].
Proof.
  apply (batches_ascend_by_number emptyDatabase Scenario.forkTrace Scenario.forkWriter).
  - vm_compute. reflexivity.
  - apply list_elem_of_here.
Defined.

Lemma flush_commits_witness :
  ∃ y, y ∈ [Scenario.item 5 2%N; Scenario.item 5 1%N] ∧
       number y = number (Scenario.item 5 2%N) ∧
       hash y = hash (Scenario.item 5 2%N) ∧
       committed
         (db (fst (saveSnaps (newStorage emptyDatabase)
                     [Scenario.item 5 2%N; Scenario.item 5 1%N] true))) y.
Proof.
  apply (flush_commits (newStorage emptyDatabase)
           [Scenario.item 5 2%N; Scenario.item 5 1%N] true (Scenario.item 5 2%N)).
  - split; reflexivity.
  - apply list_elem_of_here.
Defined.


Lemma save_after_close_witness :
  let st := Close (newStorage emptyDatabase) in
  let st' := fst (save st 7 1%N [] false) in
  snd (save st 7 1%N [] false) = finished ∧
  ch st' = ch st ∧ db st' = db st ∧ chStatus st' ≠ 0 ∧
  ∀ num' h' b', save st' num' h' b' false = (st', finished).
Proof.
  apply (save_after_close (Close (newStorage emptyDatabase)) 7 1%N []).
  reflexivity.
Defined.

Lemma store_then_load_witness :
  let st1 := fst (fst (store Scenario.marshalT Scenario.trio
                         (newStorage emptyDatabase) emptyDatabase true)) in
  getSnapshotData (db st1) (SNumber Scenario.trio) (SHash Scenario.trio)
    = inr [x7b; x7d] ∧
  loadAndFillSnapshot Scenario.unmarshalT (db st1) (SNumber Scenario.trio)
    (SHash Scenario.trio) testConfig = inr (set_config Scenario.trio testConfig).
Proof.
  apply (store_then_load Scenario.marshalT Scenario.unmarshalT Scenario.trio
           Scenario.trio (newStorage emptyDatabase) [x7b; x7d] testConfig);
    reflexivity.
Defined.

Lemma store_twice_witness :
  let st1 := fst (fst (store Scenario.marshalT Scenario.trio
                         (newStorage emptyDatabase) emptyDatabase true)) in
  (∀ force, store Scenario.marshalT Scenario.trio st1 (db st1) force
              = (st1, finished, None)) ∧
  ∀ b', shallAppend st1 (mkSnapObj (SNumber Scenario.trio) (SHash Scenario.trio) b')
        = false.
Proof.
  apply (store_twice Scenario.marshalT Scenario.trio (newStorage emptyDatabase)
           [x7b; x7d]); reflexivity.
Defined.

Lemma ticker_skips_large_buffer_witness :
  run Scenario.backlog (repeat Tick 3) = Some Scenario.backlog.
Proof.
  apply (ticker_skips_large_buffer Scenario.backlog 3).
  - reflexivity.
  - reflexivity.
  - vm_compute. discriminate.
Defined.

Lemma map_seek_put (m : gmap (list byte) Blob) k value m' :
  mapPut m k value = (m', None) → mapSeek m' k = Some value.
Proof. intros [= <-]. apply lookup_insert_eq. Qed.

Lemma map_seek_put_other (m : gmap (list byte) Blob) k value m' k' :
  mapPut m k value = (m', None) → k' ≠ k → mapSeek m' k' = mapSeek m k'.
Proof. intros [= <-] Hne. by apply lookup_insert_ne. Qed.

Lemma tallyCodec_in_range el v :
  inRangeOf el v → tallyDecode (tallyEncode v) = Some v.
Proof. intros _. apply tallyCodec_roundtrip. Qed.

Lemma put_then_get_witness :
  Scenario.getT Scenario.five Scenario.keyA = Some (5, true).
Proof.
  apply (put_then_get _ mapSeek mapPut tallyEncode tallyDecode Scenario.uintBucket
           map_seek_put (tallyCodec_in_range Scenario.uintBucket) ∅).
  - vm_compute. split; discriminate.
  - reflexivity.
Defined.

Lemma increment_then_get_witness :
  let b' := fst (Scenario.incrementT Scenario.uintBucket ∅ Scenario.keyA) in
  Scenario.getT b' Scenario.keyA = Some (wrapOf Scenario.uintBucket (0 + 1), true) ∧
  (false = false → Scenario.getT b' Scenario.keyA = Some (1, true)).
Proof.
  apply (increment_then_get _ mapSeek mapPut tallyEncode tallyDecode
           Scenario.uintBucket map_seek_put (tallyCodec_in_range Scenario.uintBucket)
           ∅ _ Scenario.keyA 0 false); reflexivity.
Defined.


Lemma decrement_then_get_witness :
  let b' := fst (Scenario.decrementT Scenario.uintBucket Scenario.five Scenario.keyA) in
  Scenario.getT b' Scenario.keyA = Some (wrapOf Scenario.uintBucket (5 - 1), true) ∧
  (Scenario.uintBucket ∈ Types → inRangeOf Scenario.uintBucket 5 → 5 ≠ minInt →
   wrapOf Scenario.uintBucket (5 - 1) = 5 - 1).
Proof.
  apply (decrement_then_get _ mapSeek mapPut tallyEncode tallyDecode
           Scenario.uintBucket map_seek_put (tallyCodec_in_range Scenario.uintBucket)
           Scenario.five _ Scenario.keyA 5); reflexivity.
Defined.

Lemma increment_then_decrement_witness :
  Scenario.getT
    (fst (Scenario.decrementT Scenario.intBucket
            (fst (Scenario.incrementT Scenario.intBucket ∅ Scenario.keyA))
            Scenario.keyA))
    Scenario.keyA = Some (0, true).
Proof.
  apply (increment_then_decrement _ mapSeek mapPut tallyEncode tallyDecode
           Scenario.intBucket map_seek_put (tallyCodec_in_range Scenario.intBucket)
           ∅ (fst (Scenario.incrementT Scenario.intBucket ∅ Scenario.keyA)) _
           Scenario.keyA 0 false).
  - reflexivity.
  - vm_compute. split; discriminate.
  - vm_compute. split; discriminate.
  - reflexivity.
  - reflexivity.
Defined.

Lemma counters_are_independent_witness :
  Scenario.getT (fst (Scenario.incrementT Scenario.uintBucket Scenario.five Scenario.keyB))
    Scenario.keyA = Scenario.getT Scenario.five Scenario.keyA.
Proof.
  apply (counters_are_independent _ mapSeek mapPut tallyEncode tallyDecode
           Scenario.uintBucket map_seek_put_other Scenario.five _ Scenario.keyB
           Scenario.keyA).
  - discriminate.
  - left. reflexivity.
Defined.
